(** * Knowledge-graph pipeline: string post-processing and the retry controller

    A shallow embedding of [src/utils.py] and of the retry section of
    [src/app.py], with the properties the specification states about them.

    Python strings are sequences of Unicode code points; they are modelled as
    lists of code points so that [str.strip], [str.split] and [str.join] can
    be written out and evaluated. *)

From Equations Require Import Equations.
From Stdlib Require Import String Ascii.
From Stdlib Require DecimalString.
From Stdlib Require Import List NArith Bool Arith Lia.
Import ListNotations.
Open Scope string_scope.
Open Scope list_scope.

Set Implicit Arguments.

(** ** Python strings *)

Module PyStr.

Definition codepoint := N.
Definition str := list codepoint.

(** An ASCII literal as a Python string. *)
Definition lit (s : string) : str := map N_of_ascii (list_ascii_of_string s).

(** The line feed, the one-character string ['\n'] of the source. *)
Definition LF : codepoint := 10%N.

(** The code points [str.strip()] removes when it is called without an
    argument: CPython's table of Unicode white space. *)
Definition isspace (c : codepoint) : bool :=
  ((9 <=? c) && (c <=? 13) || (28 <=? c) && (c <=? 32)
   || (c =? 133) || (c =? 160) || (c =? 5760)
   || (8192 <=? c) && (c <=? 8202)
   || (c =? 8232) || (c =? 8233) || (c =? 8239) || (c =? 8287)
   || (c =? 12288))%N.

Fixpoint dropwhile (p : codepoint -> bool) (s : str) : str :=
  match s with
  | [] => []
  | c :: s' => if p c then dropwhile p s' else s
  end.

Definition lstrip (s : str) : str := dropwhile isspace s.
Definition rstrip (s : str) : str := rev (dropwhile isspace (rev s)).

(** [s.strip()] *)
Definition strip (s : str) : str := rstrip (lstrip s).

(** [s.split(sep)] for a one-character separator: every occurrence of the
    separator ends a field, so the result is never the empty list and
    [''.split(sep)] is [['']]. *)
Fixpoint split (sep : codepoint) (s : str) : list str :=
  match s with
  | [] => [[]]
  | c :: s' =>
      if (c =? sep)%N then [] :: split sep s'
      else match split sep s' with
           | l :: ls => (c :: l) :: ls
           | [] => [[c]]
           end
  end.

(** [sep.join(ls)] *)
Fixpoint join (sep : str) (ls : list str) : str :=
  match ls with
  | [] => []
  | [l] => l
  | l :: ls' => l ++ sep ++ join sep ls'
  end.

(** Truth value of a string: [not s] holds exactly for the empty one. *)
Definition nonempty (s : str) : bool :=
  match s with [] => false | _ :: _ => true end.

(** [t.endswith(m)] *)
Definition endswith (t m : str) : Prop := exists p, t = p ++ m.

End PyStr.
Import PyStr.

(** ** Values, exceptions and results *)

(** The arguments the source tests for truth or for being a string are
    either strings or [None] (what [dict.get] gives for a missing slot). *)
Inductive value :=
| VStr (s : str)
| VNone.

(** [bool(v)] *)
Definition truthy (v : value) : bool :=
  match v with
  | VStr s => nonempty s
  | VNone => false
  end.

(** The exception classes that occur, with Python's subclass order:
    [HTTPError] and [ConnectionError] derive from [RequestException]; everything but [KeyboardInterrupt] derives from
    [Exception]. *)
Inductive exn_class :=
| BaseException
| KeyboardInterrupt
| Exception
| ValueError
| KeyError
| RequestException
| HTTPError
| ConnectionError
| Neo4jError.

Definition exn_class_eqb (a b : exn_class) : bool :=
  match a, b with
  | BaseException, BaseException | KeyboardInterrupt, KeyboardInterrupt
  | Exception, Exception | ValueError, ValueError | KeyError, KeyError
  | RequestException, RequestException | HTTPError, HTTPError
  | ConnectionError, ConnectionError | Neo4jError, Neo4jError => true
  | _, _ => false
  end.

(** The direct base class. *)
Definition base (c : exn_class) : option exn_class :=
  match c with
  | BaseException => None
  | KeyboardInterrupt | Exception => Some BaseException
  | ValueError | KeyError | RequestException | Neo4jError => Some Exception
  | HTTPError | ConnectionError => Some RequestException
  end.

(** [issubclass c d]; the hierarchy is three levels deep. *)
Definition issubclass (c d : exn_class) : bool :=
  exn_class_eqb c d
  || match base c with
     | None => false
     | Some c1 =>
         exn_class_eqb c1 d
         || match base c1 with
            | None => false
            | Some c2 =>
                exn_class_eqb c2 d
                || match base c2 with
                   | None => false
                   | Some c3 => exn_class_eqb c3 d
                   end
            end
     end.

(** An exception object: its class and [str(e)]. *)
Record exn := mkExn { exn_cls : exn_class; exn_msg : string }.

Definition isinstance (e : exn) (c : exn_class) : bool :=
  issubclass (exn_cls e) c.

Inductive result (A : Type) :=
| Ok (a : A)
| Raise (e : exn).
Arguments Ok {A} a.
Arguments Raise {A} e.

(** ** [utils.py]: the pure string functions *)

(** The marker ["line + ' |<special-end-tok>|'"] appends. *)
Definition marker : str := lit " |<special-end-tok>|".

Definition add_marker (line : str) : str := line ++ marker.

(** [special_delim_token] ([normalize] in the specification). *)
Definition special_delim_token (input_text : value) : result str :=
  match input_text with
  | VNone => Raise (mkExn ValueError "Input must be a string.")
  | VStr s =>
      if negb (nonempty (strip s)) then Ok []
      else
        let lines := split LF (strip s) in
        let lines_with_delimiter := map add_marker lines in
        let special_token_output_str := join [LF] lines_with_delimiter in
        Ok special_token_output_str
  end.

(** [clean_cypher_query]; [query_lines[:-1]] is [removelast]. *)
Definition clean_cypher_query (cypher_query : str) : str :=
  let query_lines := split LF (strip cypher_query) in
  let query_lines := removelast query_lines in
  let cleaned_query := join [LF] query_lines in
  cleaned_query.

(** ** The outside world: LLM endpoint, graph database, console *)

(** What varies in the body and headers of one POST to the text-generation
    endpoint: the model, the two texts spliced into the prompt and the
    bearer token. *)
Record request := mkRequest {
  req_model : string;
  req_instruct : value;
  req_input : value;
  req_token : value
}.

(** The lines the retry section prints. *)
Inductive output :=
| OutSuccess                                   (* "Query executed successfully." *)
| OutRetrying (e : exn) (n retries : nat)      (* "Error: e. Retrying... (Attempt n/retries)" *)
| OutMaxRetries                                (* "Max retries reached. Query failed." *)
| OutTruncated                                 (* "***==Attempting truncated cypher ...==**" *)
| OutError (e : exn)                           (* "Error:e" *)
| OutText (label : string) (s : str)           (* a result echoed before the loop *)
| OutLine (line : string).                     (* a fixed line echoed before the loop *)

Inductive event :=
| EvPost (r : request)
| EvNeo (cypher_query : str)
| EvPrint (o : output).

(** The history of a run, oldest event first. *)
Definition trace := list event.

Fixpoint posts (t : trace) : list request :=
  match t with
  | [] => []
  | EvPost r :: t' => r :: posts t'
  | _ :: t' => posts t'
  end.

Fixpoint submissions (t : trace) : list str :=
  match t with
  | [] => []
  | EvNeo q :: t' => q :: submissions t'
  | _ :: t' => submissions t'
  end.

Fixpoint printed (t : trace) : list output :=
  match t with
  | [] => []
  | EvPrint o :: t' => o :: printed t'
  | _ :: t' => printed t'
  end.

(** The two collaborators. [llm k r] is what happens when the [k]-th POST
    of the run (counting from 0) carries [r]: the generated text of the
    first result, or the exception that [requests.post],
    [raise_for_status], [response.json()] or the indexing raises.
    [neo4j k q] is what the [k]-th call of [query_neo], on [q], does. *)
Record env := mkEnv {
  llm : nat -> request -> result str;
  neo4j : nat -> str -> result unit
}.

(** ** A state-and-exception monad over the trace *)

Definition M (A : Type) : Type := trace -> result A * trace.

Definition ret {A} (a : A) : M A := fun t => (Ok a, t).

Definition raise {A} (e : exn) : M A := fun t => (Raise e, t).

Definition bind {A B} (m : M A) (k : A -> M B) : M B :=
  fun t =>
    match m t with
    | (Ok a, t') => k a t'
    | (Raise e, t') => (Raise e, t')
    end.

Declare Scope py_scope.
Delimit Scope py_scope with py.
Notation "x <- m ;; k" := (bind m (fun x => k))
  (at level 61, m at next level, right associativity) : py_scope.
Notation "m ;; k" := (bind m (fun _ => k))
  (at level 61, right associativity) : py_scope.
Open Scope py_scope.

Definition emit (ev : event) : M unit := fun t => (Ok tt, t ++ [ev]).

Definition print (o : output) : M unit := emit (EvPrint o).

(** [except C as e: h e] clauses, tried in order; an exception no clause
    matches, or one a handler raises, propagates. *)
Definition handlers (A : Type) := list (exn_class * (exn -> M A)).

Fixpoint dispatch {A} (hs : handlers A) (e : exn) : M A :=
  match hs with
  | [] => raise e
  | (c, h) :: hs' => if isinstance e c then h e else dispatch hs' e
  end.

Definition try_except {A} (m : M A) (hs : handlers A) : M A :=
  fun t =>
    match m t with
    | (Ok a, t') => (Ok a, t')
    | (Raise e, t') => dispatch hs e t'
    end.

(** A pure step that may raise. *)
Definition lift {A} (r : result A) : M A := fun t => (r, t).

Definition fmsg (prefix : string) (e : exn) : string :=
  (prefix ++ exn_msg e)%string.

(** ** [utils.py]: the functions that talk to the outside *)

Section Pipeline.

Variable E : env.

(** [requests.post(...)], [raise_for_status()], [response.json()] and
    [data['results'][0]['generated_text']] taken together: the request
    goes out and the endpoint decides how the four lines end. *)
Definition post (r : request) : M str :=
  fun t => (llm E (length (posts t)) r, t ++ [EvPost r]).

(** [query_neo]: the script (which the function pads with blank lines and
    runs in a write transaction) goes to the database, which accepts it or
    makes the call raise.  The event keeps the argument of the call. *)
Definition query_neo (cypher_query : str) : M unit :=
  fun t => (neo4j E (length (submissions t)) cypher_query, t ++ [EvNeo cypher_query]).

(** [all([a, b, c])] *)
Definition all (vs : list value) : bool := forallb truthy vs.

(** The body and headers of the request of [generate_text_granite_instruct]. *)
Definition text_request (system_instruct input_text my_token : value) : request :=
  mkRequest "ibm/granite-3-8b-instruct" system_instruct input_text my_token.

(** The body and headers of the request of [generate_code_granite_instruct]. *)
Definition code_request (input_text system_instruct my_token : value) : request :=
  mkRequest "ibm/granite-34b-code-instruct" system_instruct input_text my_token.

(** The [except] clauses of [generate_text_granite_instruct]: each class is
    raised again as itself, with a longer message. *)
Definition text_handlers : handlers str :=
  [ (HTTPError, fun http_err =>
       raise (mkExn HTTPError (fmsg "HTTP error occurred: " http_err)));
    (RequestException, fun req_err =>
       raise (mkExn RequestException (fmsg "Request error occurred: " req_err)));
    (Exception, fun err =>
       raise (mkExn Exception (fmsg "An error occurred: " err))) ].

(** The [except] clauses of [generate_code_granite_instruct]: every class
    is raised again as a plain [Exception]. *)
Definition code_handlers : handlers str :=
  [ (HTTPError, fun http_err =>
       raise (mkExn Exception (fmsg "HTTP error occurred: " http_err)));
    (RequestException, fun req_err =>
       raise (mkExn Exception (fmsg "Request error occurred: " req_err)));
    (Exception, fun err =>
       raise (mkExn Exception (fmsg "An error occurred: " err))) ].

Definition text_invalid : exn :=
  mkExn ValueError
    "All parameters (system_instruct, input_text, my_token) must be provided.".

Definition code_invalid : exn :=
  mkExn ValueError
    "All parameters (input_text, system_instruct, my_token) must be provided.".

Definition generate_text_granite_instruct
    (system_instruct input_text my_token : value) : M str :=
  if negb (all [system_instruct; input_text; my_token]) then raise text_invalid
  else
    let body := text_request system_instruct input_text my_token in
    try_except (post body) text_handlers.

Definition generate_code_granite_instruct
    (input_text system_instruct my_token : value) : M str :=
  if negb (all [input_text; system_instruct; my_token]) then raise code_invalid
  else
    let body := code_request input_text system_instruct my_token in
    try_except (post body) code_handlers.

(** ** [app.py]: the retry section *)

(** The variables the loop reads and writes. *)
Record vars := mkVars {
  attempt : nat;
  success : bool;
  cypher_query_final : str
}.

(** How one pass through the body of the [while] leaves it. *)
Inductive flow :=
| Break (v : vars)
| Continue (cypher_query_final : str).

Definition failed_after_retries : exn :=
  mkExn Exception "Query failed after multiple attempts.".

Section Retry.

Variable cypher_query_draft : str.
Variables system_instruct_2 TOKEN : value.

(** The repair call, written three times in the source with the same
    arguments. *)
Definition repair : M str :=
  generate_code_granite_instruct (VStr cypher_query_draft) system_instruct_2 TOKEN.

(** The [try] block of the loop. *)
Definition try_block (v : vars) : M flow :=
  final <- repair ;;
  query_neo final ;;
  print OutSuccess ;;
  ret (Break (mkVars (attempt v) true final)).

(** [if attempt == retries: ... raise Exception(...)] *)
Definition check_exhausted (retries attempt : nat) : M unit :=
  if (attempt =? retries)%nat then
    print OutMaxRetries ;;
    raise failed_after_retries
  else ret tt.

(** The [except Exception as e] block.  [attempt += 1] is the [let]; the
    loop carries the incremented counter into the next pass. *)
Definition except_block (retries : nat) (v : vars) (e : exn) : M flow :=
  print (OutRetrying e (attempt v + 1) retries) ;;
  final <- repair ;;
  let attempt' := attempt v + 1 in
  check_exhausted retries attempt' ;;
  ret (Continue final).

Equations? retry_loop (retries : nat) (v : vars) : M vars
  by wf (retries - attempt v) lt :=
retry_loop retries v with lt_dec (attempt v) retries := {
  | right _ => ret v
  | left _ =>
      f <- try_except (try_block v) [(Exception, except_block retries v)] ;;
      match f with
      | Break v' => ret v'
      | Continue final =>
          retry_loop retries (mkVars (attempt v + 1) (success v) final)
      end }.
Proof. simpl. lia. Qed.

End Retry.
End Pipeline.

(** [retries = 4] *)
Definition retries : nat := 4.

Section Script.

Variable E : env.

(** Lines 112-119: the truncated draft is tried once and whatever it
    raises is printed. *)
Definition fallback (cypher_query_draft : str) : M unit :=
  print OutTruncated ;;
  try_except
    (let truncated_cypher := clean_cypher_query cypher_query_draft in
     query_neo E truncated_cypher)
    [(Exception, fun e => print (OutError e))].

(** Lines 81-119, with the bound on the attempts as a parameter. *)
Definition retry_section (cypher_query_draft : str)
    (system_instruct_2 TOKEN : value) (retries : nat)
    (cypher_query_final : str) : M unit :=
  v <- retry_loop E cypher_query_draft system_instruct_2 TOKEN retries
         {| attempt := 0; success := false;
            cypher_query_final := cypher_query_final |} ;;
  if negb (success v) then fallback cypher_query_draft else ret tt.

(** Lines 41-119: the whole run, from the extracted document text on. *)
Definition app (system_instruct_0 system_instruct_1 system_instruct_2 : value)
    (document_text TOKEN : str) : M unit :=
  themes_relationships <-
    generate_text_granite_instruct E system_instruct_0 (VStr document_text) (VStr TOKEN) ;;
  print (OutText "THEMES/KEYWORDS/RELATIONSHOPS" themes_relationships) ;;
  print (OutLine "++++++++++++++++++++++++++") ;;
  print (OutLine "<class 'str'>") ;;
  print (OutLine "++++++++++++++++++++++++++") ;;
  delimited_node_edge_str <- lift (special_delim_token (VStr themes_relationships)) ;;
  cypher_query_draft <-
    generate_code_granite_instruct E (VStr delimited_node_edge_str) system_instruct_1 (VStr TOKEN) ;;
  print (OutText "CYPHER QUERY DRAFT" cypher_query_draft) ;;
  cypher_query_final <-
    generate_code_granite_instruct E (VStr cypher_query_draft) system_instruct_2 (VStr TOKEN) ;;
  print (OutText "CYPHER QUERY FINAL" cypher_query_final) ;;
  retry_section cypher_query_draft system_instruct_2 (VStr TOKEN) retries cypher_query_final.

End Script.

(** ** Vocabulary of the statements *)

(** A multi-line ASCII literal: the given lines joined by line feeds. *)
Definition text (ls : list string) : str := join [LF] (map lit ls).

(** What [generate_code_granite_instruct] raises when the exchange with
    the endpoint raises [e]: the first [except] clause that matches wraps
    it, and an exception outside [Exception] passes through. *)
Definition code_wrap (e : exn) : exn :=
  if isinstance e HTTPError then mkExn Exception (fmsg "HTTP error occurred: " e)
  else if isinstance e RequestException then
    mkExn Exception (fmsg "Request error occurred: " e)
  else if isinstance e Exception then mkExn Exception (fmsg "An error occurred: " e)
  else e.

(** From whatever trace [m] is run, it only adds events to it, and every
    request among them is [r]. *)
Definition sends_only (r : request) {A} (m : M A) : Prop :=
  forall t, exists u, snd (m t) = t ++ u /\ Forall (eq r) (posts u).

(** What a refused pass adds to the trace: two requests, one submission
    and lines other than the one that announces the truncated draft. *)
Definition refused_pass_adds (t t1 : trace) : Prop :=
  length (submissions t1) = length (submissions t) + 1
  /\ length (posts t1) = length (posts t) + 2
  /\ (In OutTruncated (printed t1) -> In OutTruncated (printed t)).

(** Stub collaborators for the scenarios of the specification. *)

(** An endpoint that answers every request with the same text. *)
Definition llm_fixed (x : str) : nat -> request -> result str :=
  fun _ _ => Ok x.

(** An endpoint whose first [n] exchanges fail at the transport level. *)
Definition llm_down_first (n : nat) (x : str) : nat -> request -> result str :=
  fun k _ =>
    if (k <? n)%nat then Raise (mkExn ConnectionError "connection refused")
    else Ok x.

Definition syntax_error : exn := mkExn Neo4jError "Invalid input".

(** A database that refuses the first [n] scripts and accepts the rest. *)
Definition neo_fail_first (n : nat) : nat -> str -> result unit :=
  fun k _ => if (k <? n)%nat then Raise syntax_error else Ok tt.

(** A database that refuses every script. *)
Definition neo_always_fail : nat -> str -> result unit :=
  fun _ _ => Raise syntax_error.

(** What [generate_text_granite_instruct] raises when the exchange with
    the endpoint raises [e]: an HTTP error stays an [HTTPError], any other
    request error becomes a [RequestException], anything else below
    [Exception] a plain [Exception]. *)
Definition text_wrap (e : exn) : exn :=
  if isinstance e HTTPError then mkExn HTTPError (fmsg "HTTP error occurred: " e)
  else if isinstance e RequestException then
    mkExn RequestException (fmsg "Request error occurred: " e)
  else if isinstance e Exception then mkExn Exception (fmsg "An error occurred: " e)
  else e.

(** From whatever trace [m] is run, it only adds events to it: at most
    [a] requests and [b] submissions, and never the line that announces
    the truncated draft. *)
Definition within (a b : nat) {A} (m : M A) : Prop :=
  forall t, exists u,
    snd (m t) = t ++ u
    /\ length (posts u) <= a
    /\ length (submissions u) <= b
    /\ ~ In OutTruncated (printed u).

(** ** [utils.py]: [document_processing] *)

(** What the function writes: records of the module logger and one
    printed line. *)
Inductive doc_event :=
| LogInfo (msg : string)
| LogError (msg : string)
| DocPrint (line : string).

(** The libraries the function drives, each call of which returns or
    raises: the document converter, the tokenizer loader, the chunker
    constructor, and the chunker applied to the document (the texts of the
    chunks, in order). *)
Record doc_env := mkDocEnv {
  document : Type;
  tokenizer : Type;
  chunker : Type;
  convert : str -> result document;
  from_pretrained : string -> result tokenizer;
  hybrid_chunker : tokenizer -> option N -> bool -> result chunker;
  chunk : chunker -> document -> result (list str)
}.

(** [str(n)] *)
Definition decimal (n : nat) : string :=
  DecimalString.NilEmpty.string_of_uint (Nat.to_uint n).

(** The record the loop logs. *)
Definition completed : doc_event := LogInfo "Document processing completed.".

(** The [for] loop: every chunk is appended with a line feed, and the
    completion record is logged in every round. *)
Fixpoint concatenate (chunks : list str) (input_text : str)
    (log : list doc_event) : str * list doc_event :=
  match chunks with
  | [] => (input_text, log)
  | chunk_text :: rest =>
      concatenate rest (input_text ++ chunk_text ++ [LF])
        (log ++ [completed])
  end.

(** The [try] block of [document_processing]. *)
Definition document_body (D : doc_env) (doc_source : str)
    (max_tokens : option N) : result str * list doc_event :=
  let log := [LogInfo "Starting document conversion..."] in
  match convert D doc_source with
  | Raise e => (Raise e, log)
  | Ok doc =>
  let log := log ++ [LogInfo "Document conversion successful.";
                     LogInfo "Loading tokenizer model..."] in
  let model_path := "ibm-granite/granite-3.1-8b-instruct" in
  match from_pretrained D model_path with
  | Raise e => (Raise e, log)
  | Ok tok =>
  let log := log ++ [LogInfo "Tokenizer model loaded successfully.";
                     LogInfo "Setting up the chunker..."] in
  match hybrid_chunker D tok max_tokens true with
  | Raise e => (Raise e, log)
  | Ok chk =>
  let log := log ++ [LogInfo "Chunking the document..."] in
  match chunk D chk doc with
  | Raise e => (Raise e, log)
  | Ok chunks =>
  let log := log ++ [DocPrint ("LENGTH of CHUNKS LIST:" ++ decimal (length chunks))] in
  let '(input_text, log) := concatenate chunks [] log in
  (Ok input_text, log)
  end end end end.

(** [document_processing]: the [try] block and its two [except] clauses;
    the bare [raise] passes the [ValueError] on as it is. *)
Definition document_processing (D : doc_env) (doc_source : str)
    (max_tokens : option N) : result str * list doc_event :=
  match document_body D doc_source max_tokens with
  | (Ok input_text, log) => (Ok input_text, log)
  | (Raise e, log) =>
      if isinstance e ValueError then
        (Raise e, log ++ [LogError (fmsg "ValueError occurred: " e)])
      else if isinstance e Exception then
        (Raise (mkExn Exception (fmsg "An error occurred during document processing: " e)),
         log ++ [LogError (fmsg "Unexpected error occurred: " e)])
      else (Raise e, log)
  end.

(** Some call of a library, on the way through [document_processing],
    raises [e]. *)
Definition stage_raises (D : doc_env) (doc_source : str) (max_tokens : option N)
    (e : exn) : Prop :=
  convert D doc_source = Raise e
  \/ from_pretrained D "ibm-granite/granite-3.1-8b-instruct" = Raise e
  \/ (exists tok, hybrid_chunker D tok max_tokens true = Raise e)
  \/ (exists chk doc, chunk D chk doc = Raise e).

(** The default of [max_tokens]. *)
Definition default_max_tokens : option N := Some 32000%N.

(** [app.py] from line 32 on: the document is processed, then the
    pipeline runs on its text. *)
Definition script (D : doc_env) (E : env) (source_file_path : str)
    (system_instruct_0 system_instruct_1 system_instruct_2 : value)
    (TOKEN : str) : result unit * list doc_event * trace :=
  match document_processing D source_file_path default_max_tokens with
  | (Raise e, log) => (Raise e, log, [])
  | (Ok document_text, log) =>
      let '(r, t) :=
        app E system_instruct_0 system_instruct_1 system_instruct_2
          document_text TOKEN [] in
      (r, log, t)
  end.

(** A converter, tokenizer and chunker that always work and cut the
    document into the given chunks. *)
Definition doc_env_chunks (chunks : list str) : doc_env :=
  {| document := unit; tokenizer := unit; chunker := unit;
     convert := fun _ => Ok tt;
     from_pretrained := fun _ => Ok tt;
     hybrid_chunker := fun _ _ _ => Ok tt;
     chunk := fun _ _ => Ok chunks |}.

(** A converter that cannot read the source. *)
Definition doc_env_unreadable (e : exn) : doc_env :=
  {| document := unit; tokenizer := unit; chunker := unit;
     convert := fun _ => Raise e;
     from_pretrained := fun _ => Ok tt;
     hybrid_chunker := fun _ _ _ => Ok tt;
     chunk := fun _ _ => Ok [] |}.

(** * Properties *)

(** ** Facts about [strip], [split] and [join] *)

Section StringFacts.

Implicit Types (s t l : str) (ls : list str) (c sep : codepoint).

Lemma split_not_nil sep s : split sep s <> [].
Proof.
  destruct s as [|c s]; simpl; [discriminate|].
  destruct (c =? sep)%N; [discriminate|].
  destruct (split sep s); discriminate.
Qed.

Lemma split_no_sep sep s : Forall (fun l => ~ In sep l) (split sep s).
Proof.
  induction s as [|c s IH]; simpl.
  - constructor; [intros []|constructor].
  - destruct (N.eqb_spec c sep) as [->|Hne].
    + constructor; [intros []|exact IH].
    + pose proof (split_not_nil sep s) as Hnil.
      destruct (split sep s) as [|l ls]; [congruence|].
      inversion IH; subst.
      constructor; [|assumption].
      intros [Heq|Hin]; [congruence|contradiction].
Qed.

Lemma join_split sep s : join [sep] (split sep s) = s.
Proof.
  induction s as [|c s IH]; simpl; [reflexivity|].
  destruct (N.eqb_spec c sep) as [->|Hne].
  - pose proof (split_not_nil sep s) as Hnil.
    destruct (split sep s) as [|l ls]; [congruence|].
    simpl in *. now rewrite IH.
  - pose proof (split_not_nil sep s) as Hnil.
    destruct (split sep s) as [|l ls]; [congruence|].
    destruct ls as [|l' ls]; simpl in *; now rewrite <- IH.
Qed.

Lemma split_single sep s : ~ In sep s -> split sep s = [s].
Proof.
  induction s as [|c s IH]; simpl; intros Hin; [reflexivity|].
  destruct (N.eqb_spec c sep) as [->|Hne]; [tauto|].
  rewrite IH by tauto. reflexivity.
Qed.

Lemma split_app_sep sep l s :
  ~ In sep l -> split sep (l ++ sep :: s) = l :: split sep s.
Proof.
  induction l as [|c l IH]; simpl; intros Hin.
  - now rewrite N.eqb_refl.
  - destruct (N.eqb_spec c sep) as [->|Hne]; [tauto|].
    rewrite IH by tauto. reflexivity.
Qed.

Lemma split_join sep ls :
  ls <> [] -> Forall (fun l => ~ In sep l) ls -> split sep (join [sep] ls) = ls.
Proof.
  induction ls as [|l ls IH]; intros Hnil Hall; [congruence|].
  inversion Hall as [|? ? Hl Hls]; subst.
  destruct ls as [|l' ls].
  - simpl. now apply split_single.
  - change (join [sep] (l :: l' :: ls)) with (l ++ sep :: join [sep] (l' :: ls)).
    rewrite split_app_sep by assumption.
    rewrite IH; [reflexivity|discriminate|assumption].
Qed.

Lemma dropwhile_app_stop (p : codepoint -> bool) l c t :
  p c = false -> dropwhile p (l ++ c :: t) = dropwhile p l ++ c :: t.
Proof.
  intros Hc. induction l as [|d l IH]; simpl.
  - now rewrite Hc.
  - destruct (p d); [exact IH|reflexivity].
Qed.

Lemma dropwhile_all (p : codepoint -> bool) s :
  forallb p s = true -> dropwhile p s = [].
Proof.
  induction s as [|c s IH]; simpl; [reflexivity|].
  destruct (p c); simpl; [exact IH|discriminate].
Qed.

Lemma dropwhile_head (p : codepoint -> bool) s c t :
  dropwhile p s = c :: t -> p c = false.
Proof.
  induction s as [|d s IH]; simpl; [discriminate|].
  destruct (p d) eqn:Hd; [exact IH|].
  intros [= -> _]. exact Hd.
Qed.

Lemma dropwhile_incl (p : codepoint -> bool) s c :
  In c (dropwhile p s) -> In c s.
Proof.
  induction s as [|d s IH]; simpl; [tauto|].
  destruct (p d); simpl; tauto.
Qed.

Lemma rstrip_cons c t : isspace c = false -> rstrip (c :: t) = c :: rstrip t.
Proof.
  intros Hc. unfold rstrip. simpl rev.
  change (rev t ++ [c]) with (rev t ++ c :: []).
  rewrite dropwhile_app_stop by assumption.
  rewrite rev_app_distr. reflexivity.
Qed.

Lemma rstrip_snoc s d : isspace d = false -> rstrip (s ++ [d]) = s ++ [d].
Proof.
  intros Hd. unfold rstrip. rewrite rev_app_distr. simpl.
  rewrite Hd. simpl. now rewrite rev_involutive.
Qed.

(** A string that neither starts nor ends with white space is left alone. *)
Lemma strip_fixed c t q d :
  isspace c = false -> isspace d = false -> c :: t = q ++ [d] ->
  strip (c :: t) = c :: t.
Proof.
  intros Hc Hd Heq. unfold strip, lstrip. simpl. rewrite Hc.
  rewrite Heq. now apply rstrip_snoc.
Qed.

Lemma strip_all_space s : forallb isspace s = true -> strip s = [].
Proof.
  intros H. unfold strip, lstrip. now rewrite dropwhile_all.
Qed.

(** What is left after [strip] starts with a code point that is not white
    space. *)
Lemma strip_head s c t : strip s = c :: t -> isspace c = false.
Proof.
  unfold strip, lstrip. destruct (dropwhile isspace s) as [|d u] eqn:Hd.
  - discriminate.
  - pose proof (dropwhile_head _ _ Hd) as Hsp.
    rewrite rstrip_cons by assumption. now intros [= <- _].
Qed.

Lemma strip_incl s c : In c (strip s) -> In c s.
Proof.
  unfold strip, rstrip, lstrip. intros H.
  apply in_rev in H. apply dropwhile_incl in H.
  apply in_rev in H. now apply dropwhile_incl in H.
Qed.

Lemma isspace_LF : isspace LF = true.
Proof. reflexivity. Qed.

End StringFacts.

(** ** The delimiter normalizer, [special_delim_token] *)

Section Normalizer.

Implicit Types (s t l : str) (ls : list str).

Lemma marker_no_LF : ~ In LF marker.
Proof. vm_compute. intuition discriminate. Qed.

Lemma marker_snoc : marker = lit " |<special-end-tok>" ++ [124%N].
Proof. reflexivity. Qed.

Lemma add_marker_no_LF l : ~ In LF l -> ~ In LF (add_marker l).
Proof.
  unfold add_marker. intros Hl Hin. apply in_app_or in Hin.
  destruct Hin as [Hin|Hin]; [tauto|now apply marker_no_LF].
Qed.

(** On a string with something other than white space in it the function
    returns, and returns the marked lines joined. *)
Lemma special_delim_token_lines s :
  strip s <> [] ->
  special_delim_token (VStr s)
  = Ok (join [LF] (map add_marker (split LF (strip s)))).
Proof.
  intros Hne. unfold special_delim_token.
  destruct (strip s); [congruence|reflexivity].
Qed.

(** Splitting marked lines that were joined gives the marked lines back. *)
Lemma split_join_marked ls :
  ls <> [] -> Forall (fun l => ~ In LF l) ls ->
  split LF (join [LF] (map add_marker ls)) = map add_marker ls.
Proof.
  intros Hnil Hall. apply split_join.
  - destruct ls; [congruence|discriminate].
  - apply Forall_map. eapply Forall_impl; [|exact Hall].
    intros l. apply add_marker_no_LF.
Qed.

Lemma join_marked_snoc sep ls :
  ls <> [] -> exists q, join sep (map add_marker ls) = q ++ [124%N].
Proof.
  induction ls as [|l ls IH]; intros Hnil; [congruence|].
  destruct ls as [|l' ls].
  - simpl. unfold add_marker. rewrite marker_snoc.
    exists (l ++ lit " |<special-end-tok>"). now rewrite app_assoc.
  - destruct IH as [q Hq]; [discriminate|].
    change (join sep (map add_marker (l :: l' :: ls)))
      with (add_marker l ++ sep ++ join sep (map add_marker (l' :: ls))).
    rewrite Hq. exists (add_marker l ++ sep ++ q).
    now rewrite <- !app_assoc.
Qed.

Lemma join_marked_length sep ls :
  length (join sep (map add_marker ls))
  = length (join sep ls) + length marker * length ls.
Proof.
  induction ls as [|l ls IH]; [reflexivity|].
  destruct ls as [|l' ls].
  - cbn [map join]. unfold add_marker. rewrite length_app.
    change (length [l]) with 1. lia.
  - change (join sep (map add_marker (l :: l' :: ls)))
      with (add_marker l ++ sep ++ join sep (map add_marker (l' :: ls))).
    change (join sep (l :: l' :: ls)) with (l ++ sep ++ join sep (l' :: ls)).
    unfold add_marker at 1. rewrite !length_app, IH.
    change (length (l :: l' :: ls)) with (S (length (l' :: ls))). lia.
Qed.

(** The normalized text of a string with visible content starts with that
    string's first visible code point. *)
Lemma join_marked_head s c t :
  strip s = c :: t ->
  exists u, join [LF] (map add_marker (split LF (strip s))) = c :: u.
Proof.
  intros Hs. pose proof (strip_head _ Hs) as Hc. rewrite Hs.
  assert (Hne : (c =? LF)%N = false).
  { destruct (N.eqb_spec c LF) as [->|]; [|reflexivity].
    rewrite isspace_LF in Hc. discriminate. }
  simpl split. rewrite Hne.
  pose proof (split_not_nil LF t) as Hnil.
  destruct (split LF t) as [|l ls]; [congruence|].
  destruct ls as [|l' ls]; unfold add_marker; simpl; eauto.
Qed.

(** Normalized text is a fixed point of [strip]. *)
Lemma strip_normalized s :
  strip s <> [] ->
  strip (join [LF] (map add_marker (split LF (strip s))))
  = join [LF] (map add_marker (split LF (strip s))).
Proof.
  intros Hne. destruct (strip s) as [|c t] eqn:Hs; [congruence|].
  destruct (join_marked_head _ Hs) as [u Hu].
  destruct (@join_marked_snoc [LF] (split LF (strip s))) as [q Hq];
    [apply split_not_nil|].
  rewrite Hs in Hu, Hq. rewrite Hu.
  eapply strip_fixed with (d := 124%N); [eapply strip_head; eassumption|reflexivity|].
  rewrite <- Hu. exact Hq.
Qed.

End Normalizer.

(** ** Running the monad *)

Section MonadFacts.

Context {A B : Type}.

Lemma bind_ok (m : M A) (k : A -> M B) t a t' :
  m t = (Ok a, t') -> bind m k t = k a t'.
Proof. unfold bind. now intros ->. Qed.

Lemma bind_raise (m : M A) (k : A -> M B) t e t' :
  m t = (Raise e, t') -> bind m k t = (Raise e, t').
Proof. unfold bind. now intros ->. Qed.

Lemma try_except_ok (m : M A) hs t a t' :
  m t = (Ok a, t') -> try_except m hs t = (Ok a, t').
Proof. unfold try_except. now intros ->. Qed.

Lemma try_except_raise (m : M A) hs t e t' :
  m t = (Raise e, t') -> try_except m hs t = dispatch hs e t'.
Proof. unfold try_except. now intros ->. Qed.

End MonadFacts.

Lemma posts_app t u : posts (t ++ u) = posts t ++ posts u.
Proof.
  induction t as [|[r|q|o] t IH]; simpl; [reflexivity| |assumption..].
  now rewrite IH.
Qed.

Lemma submissions_app t u : submissions (t ++ u) = submissions t ++ submissions u.
Proof.
  induction t as [|[r|q|o] t IH]; simpl; [reflexivity|assumption| |assumption].
  now rewrite IH.
Qed.

Lemma printed_app t u : printed (t ++ u) = printed t ++ printed u.
Proof.
  induction t as [|[r|q|o] t IH]; simpl; [reflexivity|assumption..|].
  now rewrite IH.
Qed.

(** Counting what a trace that was extended holds. *)
Ltac trace_norm :=
  rewrite ?submissions_app, ?posts_app, ?printed_app, ?length_app; simpl.

(** ** The two LLM functions *)

Section LlmFacts.

Variable E : env.

Lemma all3 a b c :
  all [a; b; c] = false <-> truthy a = false \/ truthy b = false \/ truthy c = false.
Proof.
  unfold all. simpl. destruct (truthy a), (truthy b), (truthy c); simpl; tauto.
Qed.

Lemma dispatch_code_handlers e t :
  dispatch code_handlers e t = (Raise (code_wrap e), t).
Proof.
  unfold code_handlers, code_wrap. simpl.
  destruct (isinstance e HTTPError); [reflexivity|].
  destruct (isinstance e RequestException); [reflexivity|].
  destruct (isinstance e Exception); reflexivity.
Qed.

(** What the wrapper raises for an exception below [Exception] is again
    below [Exception]. *)
Lemma code_wrap_Exception e :
  isinstance e Exception = true -> isinstance (code_wrap e) Exception = true.
Proof.
  intros He. unfold code_wrap.
  destruct (isinstance e HTTPError); [reflexivity|].
  destruct (isinstance e RequestException); [reflexivity|].
  rewrite He. reflexivity.
Qed.

Lemma generate_code_ok a b c t x :
  all [a; b; c] = true ->
  llm E (length (posts t)) (code_request a b c) = Ok x ->
  generate_code_granite_instruct E a b c t = (Ok x, t ++ [EvPost (code_request a b c)]).
Proof.
  intros Hall Hx. unfold generate_code_granite_instruct. rewrite Hall. simpl.
  apply try_except_ok. unfold post. now rewrite Hx.
Qed.

Lemma generate_code_raise a b c t e :
  all [a; b; c] = true ->
  llm E (length (posts t)) (code_request a b c) = Raise e ->
  generate_code_granite_instruct E a b c t
  = (Raise (code_wrap e), t ++ [EvPost (code_request a b c)]).
Proof.
  intros Hall He. unfold generate_code_granite_instruct. rewrite Hall. simpl.
  erewrite try_except_raise; [apply dispatch_code_handlers|].
  unfold post. now rewrite He.
Qed.

Lemma generate_code_invalid a b c t :
  all [a; b; c] = false ->
  generate_code_granite_instruct E a b c t = (Raise code_invalid, t).
Proof.
  intros Hall. unfold generate_code_granite_instruct. now rewrite Hall.
Qed.

Lemma generate_text_invalid a b c t :
  all [a; b; c] = false ->
  generate_text_granite_instruct E a b c t = (Raise text_invalid, t).
Proof.
  intros Hall. unfold generate_text_granite_instruct. now rewrite Hall.
Qed.

(** Whatever happens, a call of [generate_code_granite_instruct] sends at
    most one request, and that request carries its three arguments. *)
Lemma generate_code_trace a b c t :
  snd (generate_code_granite_instruct E a b c t) = t
  \/ snd (generate_code_granite_instruct E a b c t) = t ++ [EvPost (code_request a b c)].
Proof.
  destruct (all [a; b; c]) eqn:Hall.
  - right. destruct (llm E (length (posts t)) (code_request a b c)) as [x|e] eqn:Hl.
    + now rewrite (generate_code_ok _ _ _ _ Hall Hl).
    + now rewrite (generate_code_raise _ _ _ _ Hall Hl).
  - left. now rewrite generate_code_invalid.
Qed.

End LlmFacts.

(** ** One pass through the retry loop *)

Section LoopFacts.

Variable E : env.
Variable draft : str.
Variables instruct token : value.

Local Abbreviation req := (code_request (VStr draft) instruct token).

Hypothesis valid : all [VStr draft; instruct; token] = true.

Local Abbreviation loop := (retry_loop E draft instruct token).
Local Abbreviation rep := (repair E draft instruct token).

Lemma retry_loop_done retries v t :
  ~ attempt v < retries -> loop retries v t = (Ok v, t).
Proof.
  intros H. simp retry_loop.
  destruct (lt_dec (attempt v) retries); [contradiction|reflexivity].
Qed.

(** The loop body, as an equation on runs. *)
Lemma retry_loop_step retries v t :
  attempt v < retries ->
  loop retries v t
  = (f <- try_except (try_block E draft instruct token v)
            [(Exception, except_block E draft instruct token retries v)] ;;
     match f with
     | Break v' => ret v'
     | Continue final => loop retries (mkVars (attempt v + 1) (success v) final)
     end) t.
Proof.
  intros H. simp retry_loop.
  destruct (lt_dec (attempt v) retries); [reflexivity|contradiction].
Qed.

Lemma repair_ok t x :
  llm E (length (posts t)) req = Ok x -> rep t = (Ok x, t ++ [EvPost req]).
Proof. intros Hx. now apply generate_code_ok. Qed.

Lemma repair_raise t e :
  llm E (length (posts t)) req = Raise e ->
  rep t = (Raise (code_wrap e), t ++ [EvPost req]).
Proof. intros He. now apply generate_code_raise. Qed.

(** The [try] block when the exchange with the endpoint raises. *)
Lemma try_block_llm_raise v t e :
  llm E (length (posts t)) req = Raise e ->
  try_block E draft instruct token v t = (Raise (code_wrap e), t ++ [EvPost req]).
Proof.
  intros He. unfold try_block. apply bind_raise. now apply repair_raise.
Qed.

(** The [try] block when the database refuses the repaired query. *)
Lemma try_block_neo_raise v t x e :
  llm E (length (posts t)) req = Ok x ->
  neo4j E (length (submissions t)) x = Raise e ->
  try_block E draft instruct token v t
  = (Raise e, t ++ [EvPost req; EvNeo x]).
Proof.
  intros Hx He. unfold try_block.
  erewrite bind_ok by (apply repair_ok; eassumption).
  apply bind_raise. unfold query_neo.
  rewrite submissions_app, length_app, Nat.add_0_r, He.
  now rewrite <- app_assoc.
Qed.

(** The [try] block when both calls return. *)
Lemma try_block_ok v t x :
  llm E (length (posts t)) req = Ok x ->
  neo4j E (length (submissions t)) x = Ok tt ->
  try_block E draft instruct token v t
  = (Ok (Break (mkVars (attempt v) true x)),
     t ++ [EvPost req; EvNeo x; EvPrint OutSuccess]).
Proof.
  intros Hx Hq. unfold try_block.
  erewrite bind_ok by (apply repair_ok; eassumption).
  erewrite bind_ok.
  2:{ unfold query_neo. rewrite submissions_app, length_app, Nat.add_0_r, Hq.
      reflexivity. }
  unfold bind, print, emit, ret. now rewrite <- !app_assoc.
Qed.

Lemma check_exhausted_pass retries a t :
  a <> retries -> check_exhausted retries a t = (Ok tt, t).
Proof.
  intros H. unfold check_exhausted.
  destruct (Nat.eqb_spec a retries); [contradiction|reflexivity].
Qed.

Lemma check_exhausted_raise retries t :
  check_exhausted retries retries t
  = (Raise failed_after_retries, t ++ [EvPrint OutMaxRetries]).
Proof.
  unfold check_exhausted. rewrite Nat.eqb_refl. reflexivity.
Qed.

(** The handler when its own repair call returns and attempts are left. *)
Lemma except_block_ok retries v e t y :
  llm E (length (posts t)) req = Ok y ->
  attempt v + 1 <> retries ->
  except_block E draft instruct token retries v e t
  = (Ok (Continue y),
     t ++ [EvPrint (OutRetrying e (attempt v + 1) retries); EvPost req]).
Proof.
  intros Hy Hne. unfold except_block, bind at 1, print, emit.
  erewrite bind_ok.
  2:{ apply repair_ok. rewrite posts_app, length_app, Nat.add_0_r. exact Hy. }
  erewrite bind_ok by (apply check_exhausted_pass; exact Hne).
  unfold ret. now rewrite <- app_assoc.
Qed.

(** The handler when its own repair call returns and the counter reaches
    the bound. *)
Lemma except_block_exhausted retries v e t y :
  llm E (length (posts t)) req = Ok y ->
  attempt v + 1 = retries ->
  except_block E draft instruct token retries v e t
  = (Raise failed_after_retries,
     t ++ [EvPrint (OutRetrying e (attempt v + 1) retries); EvPost req;
           EvPrint OutMaxRetries]).
Proof.
  intros Hy Heq. subst retries. unfold except_block, bind at 1, print, emit.
  erewrite bind_ok.
  2:{ apply repair_ok. rewrite posts_app, length_app, Nat.add_0_r. exact Hy. }
  erewrite bind_raise by apply check_exhausted_raise.
  now rewrite <- !app_assoc.
Qed.

(** The handler when its own repair call raises. *)
Lemma except_block_raise retries v e t e' :
  llm E (length (posts t)) req = Raise e' ->
  except_block E draft instruct token retries v e t
  = (Raise (code_wrap e'),
     t ++ [EvPrint (OutRetrying e (attempt v + 1) retries); EvPost req]).
Proof.
  intros He. unfold except_block, bind at 1, print, emit.
  erewrite bind_raise.
  2:{ apply repair_raise. rewrite posts_app, length_app, Nat.add_0_r. exact He. }
  now rewrite <- app_assoc.
Qed.

(** A pass whose [try] block returns ends the loop with [success] set. *)
Lemma pass_success retries v t x :
  attempt v < retries ->
  llm E (length (posts t)) req = Ok x ->
  neo4j E (length (submissions t)) x = Ok tt ->
  loop retries v t
  = (Ok (mkVars (attempt v) true x),
     t ++ [EvPost req; EvNeo x; EvPrint OutSuccess]).
Proof.
  intros Hlt Hx Hq. rewrite retry_loop_step by assumption.
  erewrite bind_ok by (apply try_except_ok; apply try_block_ok; eassumption).
  reflexivity.
Qed.

(** A pass whose [try] block raises [e], an [Exception], whose handler
    gets an answer [y] from its own repair call, and which leaves attempts:
    the loop goes on with the next pass. *)
Lemma pass_caught retries v t e t1 y :
  attempt v + 1 < retries ->
  try_block E draft instruct token v t = (Raise e, t1) ->
  isinstance e Exception = true ->
  llm E (length (posts t1)) req = Ok y ->
  loop retries v t
  = loop retries (mkVars (attempt v + 1) (success v) y)
      (t1 ++ [EvPrint (OutRetrying e (attempt v + 1) retries); EvPost req]).
Proof.
  intros Hlt Htry He Hy. rewrite retry_loop_step by lia.
  assert (Hrun :
    try_except (try_block E draft instruct token v)
      [(Exception, except_block E draft instruct token retries v)] t
    = (Ok (Continue y),
       t1 ++ [EvPrint (OutRetrying e (attempt v + 1) retries); EvPost req])).
  { erewrite try_except_raise by eassumption.
    cbn [dispatch]. rewrite He. apply except_block_ok; [exact Hy|lia]. }
  erewrite bind_ok by exact Hrun. reflexivity.
Qed.

(** The same pass when it was the last one allowed: the handler raises. *)
Lemma pass_caught_last retries v t e t1 y :
  attempt v + 1 = retries ->
  try_block E draft instruct token v t = (Raise e, t1) ->
  isinstance e Exception = true ->
  llm E (length (posts t1)) req = Ok y ->
  loop retries v t
  = (Raise failed_after_retries,
     t1 ++ [EvPrint (OutRetrying e (attempt v + 1) retries); EvPost req;
            EvPrint OutMaxRetries]).
Proof.
  intros Heq Htry He Hy. rewrite retry_loop_step by lia.
  apply bind_raise.
  erewrite try_except_raise by eassumption.
  cbn [dispatch]. rewrite He. eapply except_block_exhausted; eassumption.
Qed.

(** A pass whose handler's own repair call raises: that exception leaves
    the loop. *)
Lemma pass_handler_raise retries v t e t1 e' :
  attempt v < retries ->
  try_block E draft instruct token v t = (Raise e, t1) ->
  isinstance e Exception = true ->
  llm E (length (posts t1)) req = Raise e' ->
  loop retries v t
  = (Raise (code_wrap e'),
     t1 ++ [EvPrint (OutRetrying e (attempt v + 1) retries); EvPost req]).
Proof.
  intros Hlt Htry He He'. rewrite retry_loop_step by lia.
  apply bind_raise.
  erewrite try_except_raise by eassumption.
  cbn [dispatch]. rewrite He. eapply except_block_raise; eassumption.
Qed.

End LoopFacts.

(** ** Whole runs of the loop *)

Section RunFacts.

Variable E : env.
Variable draft : str.
Variables instruct token : value.
Variable maxAttempts : nat.

Local Abbreviation req := (code_request (VStr draft) instruct token).

Hypothesis valid : all [VStr draft; instruct; token] = true.
Hypothesis llm_answers : forall k r, exists x, llm E k r = Ok x.

Local Abbreviation loop := (retry_loop E draft instruct token maxAttempts).

(** A pass whose submission is refused, with attempts left. *)
Lemma pass_refused v t :
  attempt v + 1 < maxAttempts ->
  (forall q, exists e,
     neo4j E (length (submissions t)) q = Raise e /\ isinstance e Exception = true) ->
  exists y t1,
    loop v t = loop (mkVars (attempt v + 1) (success v) y) t1
    /\ refused_pass_adds t t1.
Proof.
  intros Hlt Hfail.
  destruct (llm_answers (length (posts t)) req) as [x Hx].
  destruct (Hfail x) as (e & He & Hexc).
  assert (Htry : try_block E draft instruct token v t
                 = (Raise e, t ++ [EvPost req; EvNeo x]))
    by (eapply try_block_neo_raise; eassumption).
  destruct (llm_answers (length (posts (t ++ [EvPost req; EvNeo x]))) req) as [y Hy].
  exists y. eexists. split.
  - eapply pass_caught; eassumption.
  - unfold refused_pass_adds.
    trace_norm.
    repeat split; try lia.
    intros Ho. rewrite app_nil_r in Ho. apply in_app_or in Ho.
    destruct Ho as [Ho|[Ho|[]]]; [assumption|discriminate].
Qed.

(** A pass whose submission is refused, the last one allowed. *)
Lemma pass_refused_last v t :
  attempt v + 1 = maxAttempts ->
  (forall q, exists e,
     neo4j E (length (submissions t)) q = Raise e /\ isinstance e Exception = true) ->
  exists t1,
    loop v t = (Raise failed_after_retries, t1)
    /\ refused_pass_adds t t1.
Proof.
  intros Hlt Hfail.
  destruct (llm_answers (length (posts t)) req) as [x Hx].
  destruct (Hfail x) as (e & He & Hexc).
  assert (Htry : try_block E draft instruct token v t
                 = (Raise e, t ++ [EvPost req; EvNeo x]))
    by (eapply try_block_neo_raise; eassumption).
  destruct (llm_answers (length (posts (t ++ [EvPost req; EvNeo x]))) req) as [y Hy].
  eexists. split.
  - eapply pass_caught_last; eassumption.
  - unfold refused_pass_adds.
    trace_norm.
    repeat split; try lia.
    intros Ho. rewrite app_nil_r in Ho. apply in_app_or in Ho.
    destruct Ho as [Ho|[Ho|[Ho|[]]]]; [assumption|discriminate..].
Qed.

(** The database refuses [n] scripts and accepts the next one: the loop
    ends with [success] set after [n + 1] submissions and [2 * n + 1]
    requests, and the last line printed reports the success. *)
Lemma loop_succeeds_after n :
  forall v t,
    attempt v + n < maxAttempts ->
    (forall i q, i < n -> exists e,
       neo4j E (length (submissions t) + i) q = Raise e
       /\ isinstance e Exception = true) ->
    (forall q, neo4j E (length (submissions t) + n) q = Ok tt) ->
    exists v' t',
      loop v t = (Ok v', t')
      /\ success v' = true
      /\ attempt v' = attempt v + n
      /\ length (submissions t') = length (submissions t) + n + 1
      /\ length (posts t') = length (posts t) + 2 * n + 1
      /\ last (printed t') OutMaxRetries = OutSuccess.
Proof.
  induction n as [|n IH]; intros v t Hlt Hfail Hok.
  - destruct (llm_answers (length (posts t)) req) as [x Hx].
    specialize (Hok x). rewrite Nat.add_0_r in Hok.
    exists (mkVars (attempt v) true x), (t ++ [EvPost req; EvNeo x; EvPrint OutSuccess]).
    split; [apply pass_success; [exact valid|lia|assumption..]|].
    trace_norm.
    repeat split; try lia.
    now rewrite last_last.
  - destruct (@pass_refused v t) as (y & t1 & Hpass & Hs1 & Hp1 & _); [lia| |].
    { intros q. destruct (Hfail 0 q ltac:(lia)) as (e & He & Hexc).
      rewrite Nat.add_0_r in He. eauto. }
    destruct (IH (mkVars (attempt v + 1) (success v) y) t1)
      as (v' & t' & Hrun & Hsucc & Hatt & Hsub & Hpost & Hlast).
    + simpl. lia.
    + intros i q Hi. rewrite Hs1.
      replace (length (submissions t) + 1 + i)
        with (length (submissions t) + S i) by lia.
      apply Hfail. lia.
    + intros q. rewrite Hs1.
      replace (length (submissions t) + 1 + n)
        with (length (submissions t) + S n) by lia.
      apply Hok.
    + exists v', t'. rewrite Hpass, Hrun. simpl in Hatt.
      repeat split; try assumption; lia.
Qed.

(** The database refuses every script: after [n] more passes the counter
    reaches the bound and the handler raises; nothing after the loop runs. *)
Lemma loop_exhausts n :
  forall v t,
    attempt v + S n = maxAttempts ->
    (forall k q, exists e,
       neo4j E k q = Raise e /\ isinstance e Exception = true) ->
    exists t',
      loop v t = (Raise failed_after_retries, t')
      /\ length (submissions t') = length (submissions t) + S n
      /\ length (posts t') = length (posts t) + 2 * S n
      /\ (In OutTruncated (printed t') -> In OutTruncated (printed t)).
Proof.
  induction n as [|n IH]; intros v t Hatt Hfail.
  - destruct (@pass_refused_last v t) as (t1 & Hpass & Hs1 & Hp1 & Hpr);
      [lia|intros q; apply Hfail|].
    exists t1. repeat split; try assumption; lia.
  - destruct (@pass_refused v t) as (y & t1 & Hpass & Hs1 & Hp1 & Hpr);
      [lia|intros q; apply Hfail|].
    destruct (IH (mkVars (attempt v + 1) (success v) y) t1)
      as (t' & Hrun & Hsub & Hpost & Hprint); [simpl; lia|assumption|].
    exists t'. rewrite Hpass, Hrun.
    repeat split; try lia.
    intros Hin. exact (Hpr (Hprint Hin)).
Qed.

End RunFacts.

(** ** The requests a computation sends *)

Section SendsOnly.

Variable E : env.
Variable r : request.

Lemma sends_only_ret {A} (a : A) : sends_only r (ret a).
Proof. intros t. exists []. simpl. now rewrite app_nil_r. Qed.

Lemma sends_only_raise {A} (e : exn) : sends_only r (@raise A e).
Proof. intros t. exists []. simpl. now rewrite app_nil_r. Qed.

Lemma sends_only_print o : sends_only r (print o).
Proof. intros t. exists [EvPrint o]. now split. Qed.

Lemma sends_only_query_neo q : sends_only r (query_neo E q).
Proof. intros t. exists [EvNeo q]. now split. Qed.

(** Once the first step of a sequence has run, the rest only adds to what
    it left. *)
Lemma bind_from {A B} (m : M A) (k : A -> M B) t res t1 :
  m t = (res, t1) ->
  (forall a, sends_only r (k a)) ->
  exists u, snd (bind m k t) = t1 ++ u /\ Forall (eq r) (posts u).
Proof.
  intros Hm Hk. unfold bind. rewrite Hm. destruct res as [a|e].
  - apply Hk.
  - exists []. simpl. now rewrite app_nil_r.
Qed.

Lemma sends_only_bind {A B} (m : M A) (k : A -> M B) :
  sends_only r m -> (forall a, sends_only r (k a)) -> sends_only r (bind m k).
Proof.
  intros Hm Hk t. destruct (Hm t) as (u1 & Hu1 & Hp1).
  destruct (@bind_from _ _ m k t (fst (m t)) (snd (m t))) as (u2 & Hu2 & Hp2);
    [now destruct (m t)|exact Hk|].
  exists (u1 ++ u2). rewrite Hu2, Hu1, posts_app, app_assoc.
  split; [reflexivity|now apply Forall_app].
Qed.

Lemma sends_only_dispatch {A} (hs : handlers A) e :
  Forall (fun ch => forall e', sends_only r (snd ch e')) hs ->
  sends_only r (dispatch hs e).
Proof.
  induction 1 as [|[c h] hs Hh _ IH]; simpl.
  - apply sends_only_raise.
  - destruct (isinstance e c); [apply Hh|exact IH].
Qed.

Lemma try_except_from {A} (m : M A) (hs : handlers A) t res t1 :
  m t = (res, t1) ->
  Forall (fun ch => forall e, sends_only r (snd ch e)) hs ->
  exists u, snd (try_except m hs t) = t1 ++ u /\ Forall (eq r) (posts u).
Proof.
  intros Hm Hhs. unfold try_except. rewrite Hm. destruct res as [a|e].
  - exists []. simpl. now rewrite app_nil_r.
  - now apply sends_only_dispatch.
Qed.

Lemma sends_only_try_except {A} (m : M A) (hs : handlers A) :
  sends_only r m ->
  Forall (fun ch => forall e, sends_only r (snd ch e)) hs ->
  sends_only r (try_except m hs).
Proof.
  intros Hm Hhs t. destruct (Hm t) as (u1 & Hu1 & Hp1).
  destruct (@try_except_from _ m hs t (fst (m t)) (snd (m t))) as (u2 & Hu2 & Hp2);
    [now destruct (m t)|exact Hhs|].
  exists (u1 ++ u2). rewrite Hu2, Hu1, posts_app, app_assoc.
  split; [reflexivity|now apply Forall_app].
Qed.

(** A single [except] clause. *)
Lemma sends_only_handler {A} (c : exn_class) (h : exn -> M A) :
  (forall e, sends_only r (h e)) ->
  Forall (fun ch : exn_class * (exn -> M A) => forall e, sends_only r (snd ch e))
    [(c, h)].
Proof. intros Hh. constructor; [exact Hh|constructor]. Qed.

End SendsOnly.

Create HintDb sends discriminated.
#[export] Hint Resolve sends_only_ret sends_only_raise sends_only_print
  sends_only_query_neo sends_only_bind sends_only_try_except
  sends_only_handler : sends.

Section DraftFacts.

Variable E : env.
Variable draft : str.
Variables instruct token : value.

Local Abbreviation req := (code_request (VStr draft) instruct token).

Lemma sends_only_repair : sends_only req (repair E draft instruct token).
Proof.
  intros t. unfold repair.
  destruct (generate_code_trace E (VStr draft) instruct token t) as [-> | ->].
  - exists []. now rewrite app_nil_r.
  - exists [EvPost req]. split; [reflexivity|repeat constructor].
Qed.

Hint Resolve sends_only_repair : sends.

Lemma sends_only_try_block v : sends_only req (try_block E draft instruct token v).
Proof. unfold try_block. auto 8 with sends. Qed.

Lemma sends_only_check_exhausted n a : sends_only req (check_exhausted n a).
Proof. unfold check_exhausted. destruct (a =? n)%nat; auto with sends. Qed.

Hint Resolve sends_only_try_block sends_only_check_exhausted : sends.

Lemma sends_only_except_block n v e :
  sends_only req (except_block E draft instruct token n v e).
Proof. unfold except_block. auto 8 with sends. Qed.

Hint Resolve sends_only_except_block : sends.

(** By induction on the number of attempts that are left. *)
Lemma sends_only_retry_loop n v :
  sends_only req (retry_loop E draft instruct token n v).
Proof.
  remember (n - attempt v) as k eqn:Hk.
  revert v Hk. induction k as [|k IH]; intros v Hk t.
  - rewrite retry_loop_done by lia. now apply sends_only_ret.
  - rewrite retry_loop_step by lia. revert t.
    apply sends_only_bind; [solve [auto 6 with sends]|].
    intros [v'|final]; [auto with sends|].
    apply IH. simpl. lia.
Qed.

Lemma sends_only_fallback : sends_only req (fallback E draft).
Proof. unfold fallback. auto 8 with sends. Qed.

Lemma sends_only_retry_section n final :
  sends_only req (retry_section E draft instruct token n final).
Proof.
  unfold retry_section.
  apply sends_only_bind; [apply sends_only_retry_loop|intros v].
  destruct (negb (success v)); [apply sends_only_fallback|auto with sends].
Qed.

(** With well-formed arguments every pass of the loop opens with a repair
    request for the draft. *)
Lemma pass_begins_with_repair n v t :
  all [VStr draft; instruct; token] = true ->
  attempt v < n ->
  exists u,
    snd (retry_loop E draft instruct token n v t) = t ++ EvPost req :: u
    /\ Forall (eq req) (posts u).
Proof.
  intros Hvalid Hlt. rewrite retry_loop_step by assumption.
  assert (Hrep : exists res, repair E draft instruct token t = (res, t ++ [EvPost req])).
  { destruct (llm E (length (posts t)) req) as [x|e] eqn:Hl.
    - exists (Ok x). now apply generate_code_ok.
    - exists (Raise (code_wrap e)). now apply generate_code_raise. }
  destruct Hrep as [res Hrep].
  destruct (@bind_from req _ _ _
              (fun final =>
                 query_neo E final ;; print OutSuccess ;;
                 ret (Break (mkVars (attempt v) true final)))
              t res _ Hrep) as (u1 & Hu1 & Hp1); [auto 8 with sends|].
  fold (try_block E draft instruct token v) in Hu1.
  destruct (@try_except_from req _ (try_block E draft instruct token v)
              [(Exception, except_block E draft instruct token n v)] t
              (fst (try_block E draft instruct token v t))
              ((t ++ [EvPost req]) ++ u1))
    as (u2 & Hu2 & Hp2).
  { rewrite <- Hu1. now destruct (try_block E draft instruct token v t). }
  { auto with sends. }
  match goal with
  | |- context [bind ?m ?k t] =>
      destruct (@bind_from req _ _ m k t (fst (m t))
                  (((t ++ [EvPost req]) ++ u1) ++ u2)) as (u3 & Hu3 & Hp3)
  end.
  { rewrite <- Hu2. now destruct (try_except _ _ t). }
  { intros [v'|final]; [auto with sends|apply sends_only_retry_loop]. }
  exists (u1 ++ u2 ++ u3). rewrite Hu3, <- !app_assoc. split; [reflexivity|].
  rewrite !posts_app.
  apply Forall_app; split; [assumption|].
  apply Forall_app; split; assumption.
Qed.

End DraftFacts.
(** ** Claims about [special_delim_token] *)

(** C4, as amended.  For every input that is not empty once stripped,
    [special_delim_token] returns the lines of the STRIPPED input, in
    order and one for one, each followed by the marker: the output has as
    many lines as the stripped input, every output line ends with
    [" |<special-end-tok>|"], and the count equals that of the input itself
    when the input has no leading or trailing white space. *)
Theorem normalize_marks_stripped_lines (s : str) :
  strip s <> [] ->
  exists out,
    special_delim_token (VStr s) = Ok out
    /\ split LF out = map add_marker (split LF (strip s))
    /\ length (split LF out) = length (split LF (strip s))
    /\ Forall (fun l => endswith l marker) (split LF out)
    /\ (strip s = s -> length (split LF out) = length (split LF s)).
Proof.
  intros Hne. eexists. split; [now apply special_delim_token_lines|].
  assert (Hlines : split LF (join [LF] (map add_marker (split LF (strip s))))
                   = map add_marker (split LF (strip s))).
  { apply split_join_marked; [apply split_not_nil|apply split_no_sep]. }
  rewrite Hlines. split; [reflexivity|].
  split; [apply length_map|].
  split.
  - apply Forall_map, Forall_forall. intros l _. now exists l.
  - intros Hfix. rewrite length_map, Hfix. reflexivity.
Qed.

Lemma normalize_marks_stripped_lines_witness :
  strip (text ["  a"; "b "; ""]) <> []
  /\ exists out,
       special_delim_token (VStr (text ["  a"; "b "; ""])) = Ok out
       /\ split LF out = map add_marker (split LF (strip (text ["  a"; "b "; ""])))
       /\ length (split LF out) = length (split LF (strip (text ["  a"; "b "; ""])))
       /\ Forall (fun l => endswith l marker) (split LF out)
       /\ (strip (text ["  a"; "b "; ""]) = text ["  a"; "b "; ""] ->
           length (split LF out) = length (split LF (text ["  a"; "b "; ""]))).
Proof.
  assert (H : strip (text ["  a"; "b "; ""]) <> []) by (vm_compute; discriminate).
  split; [exact H|].
  exact (normalize_marks_stripped_lines (text ["  a"; "b "; ""]) H).
Defined.

(** C4 as stated fails: the input ["\na\n\nb"] is not empty and has four
    lines, the output has three. *)
Lemma normalize_line_count_counterexample :
  ~ (forall s out,
       s <> [] -> In LF s ->
       special_delim_token (VStr s) = Ok out ->
       length (split LF out) = length (split LF s)
       /\ Forall (fun l => endswith l marker) (split LF out)).
Proof.
  intros H.
  destruct (H (text [""; "a"; ""; "b"])
              (text ["a |<special-end-tok>|"; " |<special-end-tok>|";
                     "b |<special-end-tok>|"])) as [Hlen _].
  - discriminate.
  - left. reflexivity.
  - reflexivity.
  - vm_compute in Hlen. discriminate.
Qed.

(** C5, as amended.  For every input that is not empty once stripped,
    normalizing the normalized text puts a second marker on every line, so
    the result differs from the normalized text. *)
Theorem normalize_twice_doubles_marker (s : str) :
  strip s <> [] ->
  exists y z,
    special_delim_token (VStr s) = Ok y
    /\ special_delim_token (VStr y) = Ok z
    /\ z = join [LF] (map (fun l => add_marker (add_marker l)) (split LF (strip s)))
    /\ z <> y.
Proof.
  intros Hne.
  set (ls := split LF (strip s)).
  assert (Hy : strip (join [LF] (map add_marker ls)) = join [LF] (map add_marker ls))
    by now apply strip_normalized.
  assert (Hynil : join [LF] (map add_marker ls) <> []).
  { destruct (strip s) as [|c t] eqn:Hs; [congruence|].
    destruct (join_marked_head _ Hs) as [u Hu]. rewrite Hs in Hu.
    subst ls. rewrite Hu. discriminate. }
  assert (Hsplit : split LF (join [LF] (map add_marker ls)) = map add_marker ls).
  { apply split_join_marked; [apply split_not_nil|apply split_no_sep]. }
  exists (join [LF] (map add_marker ls)),
         (join [LF] (map add_marker (map add_marker ls))).
  split; [now apply special_delim_token_lines|].
  split.
  - rewrite special_delim_token_lines by (rewrite Hy; exact Hynil).
    now rewrite Hy, Hsplit.
  - split; [now rewrite map_map|].
    intros Heq. apply (f_equal (@length codepoint)) in Heq.
    rewrite (join_marked_length [LF] (map add_marker ls)) in Heq.
    rewrite length_map in Heq.
    assert (0 < length ls).
    { pose proof (split_not_nil LF (strip s)). subst ls.
      destruct (split LF (strip s)); [congruence|simpl; lia]. }
    change (length marker) with 20 in Heq. lia.
Qed.

Lemma normalize_twice_doubles_marker_witness :
  strip (text ["a"; "b"]) <> []
  /\ exists y z,
       special_delim_token (VStr (text ["a"; "b"])) = Ok y
       /\ special_delim_token (VStr y) = Ok z
       /\ z = join [LF] (map (fun l => add_marker (add_marker l))
                             (split LF (strip (text ["a"; "b"]))))
       /\ z <> y.
Proof.
  assert (H : strip (text ["a"; "b"]) <> []) by (vm_compute; discriminate).
  split; [exact H|].
  exact (normalize_twice_doubles_marker (text ["a"; "b"]) H).
Defined.

(** C5 as stated fails: the one-space string is not empty, and normalizing
    it once or twice gives the same (empty) string. *)
Lemma normalize_idempotent_counterexample :
  ~ (forall x y z,
       x <> [] ->
       special_delim_token (VStr x) = Ok y ->
       special_delim_token (VStr y) = Ok z ->
       z <> y).
Proof.
  intros H. apply (H (lit " ") [] []); [discriminate|reflexivity..].
Qed.

(** C7.  [special_delim_token] returns the empty string, and does not
    raise, on the empty string, on ["   \n  "] and on every string made of
    white space only. *)
Theorem normalize_blank_is_empty :
  special_delim_token (VStr (lit "")) = Ok []
  /\ special_delim_token (VStr (text ["   "; "  "])) = Ok []
  /\ forall s, forallb isspace s = true -> special_delim_token (VStr s) = Ok [].
Proof.
  split; [reflexivity|]. split; [reflexivity|].
  intros s Hs. unfold special_delim_token.
  now rewrite (strip_all_space _ Hs).
Qed.

Lemma normalize_blank_is_empty_witness :
  forallb isspace (text ["   "; "  "]) = true
  /\ special_delim_token (VStr (text ["   "; "  "])) = Ok [].
Proof.
  split; [reflexivity|].
  exact (proj2 (proj2 normalize_blank_is_empty) (text ["   "; "  "]) eq_refl).
Defined.

(** ** Claims about [clean_cypher_query] *)

(** The fields of a text that ends with a line feed and a last line. *)
Lemma split_app_last (sep : codepoint) (body l : str) :
  ~ In sep l -> split sep (body ++ sep :: l) = split sep body ++ [l].
Proof.
  intros Hl. induction body as [|c body IH]; simpl.
  - rewrite N.eqb_refl. now rewrite split_single.
  - destruct (c =? sep)%N; rewrite IH; [reflexivity|].
    pose proof (split_not_nil sep body) as Hnil.
    destruct (split sep body); [congruence|reflexivity].
Qed.

(** C8, as amended.  [clean_cypher_query] strips the draft and drops the
    last line of what is left, with the line feed before it: when the
    stripped draft is [body], a line feed and a last line [l], the result
    is [body].  For a draft without white space at either end this is the
    draft without its last line; for ["LINE1\nLINE2\nLINE3"] it is
    ["LINE1\nLINE2"]. *)
Theorem clean_cypher_query_drops_last_stripped_line :
  (forall s body l,
     ~ In LF l -> strip s = body ++ LF :: l -> clean_cypher_query s = body)
  /\ (forall s body l,
        ~ In LF l -> strip s = s -> s = body ++ LF :: l ->
        clean_cypher_query s = body)
  /\ clean_cypher_query (lit "LINE1" ++ LF :: lit "LINE2" ++ LF :: lit "LINE3")
     = lit "LINE1" ++ LF :: lit "LINE2".
Proof.
  assert (H : forall s body l,
             ~ In LF l -> strip s = body ++ LF :: l -> clean_cypher_query s = body).
  { intros s body l Hl Hs. unfold clean_cypher_query.
    rewrite Hs, split_app_last by assumption.
    rewrite removelast_last. apply join_split. }
  split; [exact H|]. split; [|reflexivity].
  intros s body l Hl Hfix Hs. apply (H s body l Hl). now rewrite Hfix.
Qed.

Lemma clean_cypher_query_drops_last_stripped_line_witness :
  let s := lit "  MATCH (n)" ++ LF :: lit "RETURN n" ++ LF :: lit "RETURN" ++ [LF] in
  ~ In LF (lit "RETURN")
  /\ strip s = (lit "MATCH (n)" ++ LF :: lit "RETURN n") ++ LF :: lit "RETURN"
  /\ clean_cypher_query s = lit "MATCH (n)" ++ LF :: lit "RETURN n".
Proof.
  intros s.
  assert (H : ~ In LF (lit "RETURN")) by (vm_compute; intuition discriminate).
  split; [exact H|]. split; [reflexivity|].
  exact (proj1 clean_cypher_query_drops_last_stripped_line s
           (lit "MATCH (n)" ++ LF :: lit "RETURN n") (lit "RETURN") H eq_refl).
Defined.

(** C8 as stated fails on drafts with white space at either end: the
    result is not the draft without its last line.  ["  A\nB\nC"] gives
    ["A\nB"], not ["  A\nB"], and ["A\nB\n   "] gives ["A"], not
    ["A\nB"]. *)
Lemma clean_cypher_query_last_line_counterexample :
  clean_cypher_query (lit "  A" ++ LF :: lit "B" ++ LF :: lit "C")
  = lit "A" ++ LF :: lit "B"
  /\ clean_cypher_query (lit "A" ++ LF :: lit "B" ++ LF :: lit "   ") = lit "A"
  /\ ~ (forall s body l,
          ~ In LF l -> s = body ++ LF :: l -> clean_cypher_query s = body).
Proof.
  split; [reflexivity|]. split; [reflexivity|].
  intros H.
  assert (Hl : ~ In LF (lit "   ")) by (vm_compute; intuition discriminate).
  specialize (H (lit "A" ++ LF :: lit "B" ++ LF :: lit "   ")
                (lit "A" ++ LF :: lit "B") (lit "   ") Hl).
  rewrite <- app_assoc in H. specialize (H eq_refl).
  vm_compute in H. discriminate.
Qed.

(** C10.  When the stripped input has no line break, [clean_cypher_query]
    returns the empty string; this covers the empty string, strings of
    white space only and every draft without a line break. *)
Theorem clean_cypher_query_single_line :
  (forall s, ~ In LF (strip s) -> clean_cypher_query s = [])
  /\ clean_cypher_query [] = []
  /\ (forall s, forallb isspace s = true -> clean_cypher_query s = [])
  /\ (forall s, ~ In LF s -> clean_cypher_query s = []).
Proof.
  assert (H : forall s, ~ In LF (strip s) -> clean_cypher_query s = []).
  { intros s Hs. unfold clean_cypher_query. now rewrite split_single. }
  split; [exact H|]. split; [reflexivity|]. split.
  - intros s Hs. apply H. rewrite (strip_all_space _ Hs). intros [].
  - intros s Hs. apply H. intros Hin. apply Hs. now apply strip_incl.
Qed.

Lemma clean_cypher_query_single_line_witness :
  ~ In LF (strip (lit "  MATCH (n) RETURN n  "))
  /\ clean_cypher_query (lit "  MATCH (n) RETURN n  ") = [].
Proof.
  assert (H : ~ In LF (strip (lit "  MATCH (n) RETURN n  ")))
    by (vm_compute; intuition discriminate).
  split; [exact H|].
  exact (proj1 clean_cypher_query_single_line (lit "  MATCH (n) RETURN n  ") H).
Defined.


(** ** Claims about the LLM functions *)

(** C6.  [generate_text_granite_instruct] and
    [generate_code_granite_instruct] raise [ValueError] when any of their
    three arguments is empty (or [None]), and the trace is left as it was:
    no request is sent. *)
Theorem llm_calls_reject_empty_argument (E : env) (a b c : value) (t : trace) :
  truthy a = false \/ truthy b = false \/ truthy c = false ->
  generate_text_granite_instruct E a b c t = (Raise text_invalid, t)
  /\ generate_code_granite_instruct E a b c t = (Raise code_invalid, t)
  /\ exn_cls text_invalid = ValueError
  /\ exn_cls code_invalid = ValueError
  /\ posts (snd (generate_text_granite_instruct E a b c t)) = posts t
  /\ posts (snd (generate_code_granite_instruct E a b c t)) = posts t.
Proof.
  intros H. apply all3 in H.
  rewrite generate_text_invalid, generate_code_invalid by assumption.
  repeat split.
Qed.

Lemma llm_calls_reject_empty_argument_witness :
  let E := mkEnv (llm_fixed (lit "MERGE (n)")) (neo_fail_first 0) in
  let doc := VStr (lit "Data centers consume significant energy for cooling.") in
  (truthy doc = false \/ truthy (VStr []) = false \/ truthy (VStr (lit "token")) = false)
  /\ generate_text_granite_instruct E doc (VStr []) (VStr (lit "token")) []
     = (Raise text_invalid, [])
  /\ generate_code_granite_instruct E doc (VStr []) (VStr (lit "token")) []
     = (Raise code_invalid, []).
Proof.
  intros E doc.
  assert (H : truthy doc = false \/ truthy (VStr []) = false
              \/ truthy (VStr (lit "token")) = false)
    by (right; left; reflexivity).
  split; [exact H|].
  pose proof (llm_calls_reject_empty_argument E doc (VStr []) (VStr (lit "token")) [] H)
    as (H1 & H2 & _).
  split; assumption.
Defined.

(** ** Claims about the retry section of [app.py] *)

(** The run of the retry section against a database that refuses every
    script, written out: four passes, each with a request, a submission, a
    printed line and a second request; then the raise.  The truncated
    draft ["LINE1\nLINE2"] is never submitted. *)
Example exhaustion_run :
  let E := mkEnv (llm_fixed (lit "MERGE (n)")) neo_always_fail in
  let draft := text ["LINE1"; "LINE2"; "LINE3"] in
  let req := code_request (VStr draft) (VStr (lit "fix")) (VStr (lit "tok")) in
  let pass n :=
    [EvPost req; EvNeo (lit "MERGE (n)");
     EvPrint (OutRetrying syntax_error n 4); EvPost req] in
  retry_section E draft (VStr (lit "fix")) (VStr (lit "tok")) retries [] []
  = (Raise failed_after_retries,
     pass 1 ++ pass 2 ++ pass 3 ++ pass 4 ++ [EvPrint OutMaxRetries]).
Proof. reflexivity. Qed.

(** The run against an endpoint that is down for the first request only:
    the failure is caught in the first pass, the second pass succeeds. *)
Example endpoint_down_once_run :
  let E := mkEnv (llm_down_first 1 (lit "MERGE (n)")) (neo_fail_first 0) in
  let draft := text ["LINE1"; "LINE2"; "LINE3"] in
  let req := code_request (VStr draft) (VStr (lit "fix")) (VStr (lit "tok")) in
  let down := mkExn Exception "Request error occurred: connection refused" in
  retry_section E draft (VStr (lit "fix")) (VStr (lit "tok")) retries [] []
  = (Ok tt,
     [EvPost req; EvPrint (OutRetrying down 1 4); EvPost req;
      EvPost req; EvNeo (lit "MERGE (n)"); EvPrint OutSuccess]).
Proof. reflexivity. Qed.

(** C2, what the code does.  When the endpoint always answers, the
    database refuses the first [N] submissions and accepts the next, and
    [N < maxAttempts], the retry section ends normally with [success] set
    after exactly [N + 1] submissions, but after [2 * N + 1] repair
    requests: one per pass and one more in the handler of each refused
    pass. *)
Theorem retry_succeeds_with_extra_repairs
    (E : env) (draft : str) (instruct token : value)
    (maxAttempts N : nat) (final0 : str) :
  all [VStr draft; instruct; token] = true ->
  (forall k r, exists x, llm E k r = Ok x) ->
  (forall k q, k < N -> exists e,
     neo4j E k q = Raise e /\ isinstance e Exception = true) ->
  (forall q, neo4j E N q = Ok tt) ->
  N < maxAttempts ->
  exists v t,
    retry_loop E draft instruct token maxAttempts (mkVars 0 false final0) []
    = (Ok v, t)
    /\ retry_section E draft instruct token maxAttempts final0 [] = (Ok tt, t)
    /\ success v = true
    /\ last (printed t) OutMaxRetries = OutSuccess
    /\ length (submissions t) = N + 1
    /\ length (posts t) = 2 * N + 1
    /\ Forall (eq (code_request (VStr draft) instruct token)) (posts t).
Proof.
  intros Hvalid Hllm Hfail Hok Hlt.
  destruct (@loop_succeeds_after E draft instruct token maxAttempts Hvalid Hllm N
              (mkVars 0 false final0) [])
    as (v & t & Hrun & Hsucc & _ & Hsub & Hpost & Hlast);
    [simpl; lia|intros i q Hi; now apply Hfail|intros q; apply Hok|].
  exists v, t. simpl in Hsub, Hpost.
  repeat split; try assumption; try lia.
  - unfold retry_section. erewrite bind_ok by exact Hrun.
    now rewrite Hsucc.
  - destruct (@sends_only_retry_loop E draft instruct token maxAttempts
                (mkVars 0 false final0) []) as (u & Hu & Hp).
    rewrite Hrun in Hu. simpl in Hu. now subst t.
Qed.

Lemma retry_succeeds_with_extra_repairs_witness :
  let E := mkEnv (llm_fixed (lit "MERGE (n)")) (neo_fail_first 1) in
  exists v t,
    retry_loop E (text ["LINE1"; "LINE2"; "LINE3"]) (VStr (lit "fix")) (VStr (lit "tok"))
      retries (mkVars 0 false []) []
    = (Ok v, t)
    /\ retry_section E (text ["LINE1"; "LINE2"; "LINE3"]) (VStr (lit "fix"))
         (VStr (lit "tok")) retries [] [] = (Ok tt, t)
    /\ success v = true
    /\ last (printed t) OutMaxRetries = OutSuccess
    /\ length (submissions t) = 1 + 1
    /\ length (posts t) = 2 * 1 + 1
    /\ Forall (eq (code_request (VStr (text ["LINE1"; "LINE2"; "LINE3"]))
                     (VStr (lit "fix")) (VStr (lit "tok")))) (posts t).
Proof.
  intros E.
  apply (@retry_succeeds_with_extra_repairs E (text ["LINE1"; "LINE2"; "LINE3"])
           (VStr (lit "fix")) (VStr (lit "tok")) retries 1 []).
  - reflexivity.
  - intros k r. exists (lit "MERGE (n)"). reflexivity.
  - intros k q Hk. exists syntax_error.
    destruct k as [|k]; [split; reflexivity|lia].
  - intros q. reflexivity.
  - unfold retries. lia.
Defined.

(** C1, what the code does.  When the endpoint always answers and the
    database refuses every submission, the retry section submits
    [maxAttempts] scripts and then raises "Query failed after multiple
    attempts." out of the handler: the block that would try the truncated
    draft is never entered, so nothing is printed or submitted for it. *)
Theorem retry_exhaustion_raises
    (E : env) (draft : str) (instruct token : value)
    (maxAttempts : nat) (final0 : str) :
  all [VStr draft; instruct; token] = true ->
  (forall k r, exists x, llm E k r = Ok x) ->
  (forall k q, exists e,
     neo4j E k q = Raise e /\ isinstance e Exception = true) ->
  0 < maxAttempts ->
  exists t,
    retry_section E draft instruct token maxAttempts final0 []
    = (Raise failed_after_retries, t)
    /\ length (submissions t) = maxAttempts
    /\ length (posts t) = 2 * maxAttempts
    /\ ~ In OutTruncated (printed t).
Proof.
  intros Hvalid Hllm Hfail Hpos.
  destruct maxAttempts as [|n]; [lia|].
  destruct (@loop_exhausts E draft instruct token (S n) Hvalid Hllm n
              (mkVars 0 false final0) [])
    as (t & Hrun & Hsub & Hpost & Hprint); [reflexivity|exact Hfail|].
  exists t. split.
  - unfold retry_section. now apply bind_raise.
  - simpl in Hsub, Hpost. repeat split; try lia.
    intros Hin. exact (Hprint Hin).
Qed.

Lemma retry_exhaustion_raises_witness :
  let E := mkEnv (llm_fixed (lit "MERGE (n)")) neo_always_fail in
  exists t,
    retry_section E (text ["LINE1"; "LINE2"; "LINE3"]) (VStr (lit "fix"))
      (VStr (lit "tok")) retries [] []
    = (Raise failed_after_retries, t)
    /\ length (submissions t) = retries
    /\ length (posts t) = 2 * retries
    /\ ~ In OutTruncated (printed t).
Proof.
  intros E.
  apply (@retry_exhaustion_raises E (text ["LINE1"; "LINE2"; "LINE3"])
           (VStr (lit "fix")) (VStr (lit "tok")) retries []).
  - reflexivity.
  - intros k r. exists (lit "MERGE (n)"). reflexivity.
  - intros k q. exists syntax_error. split; reflexivity.
  - unfold retries. lia.
Defined.

(** C3, as amended.  The [except Exception] clause of the loop catches
    what the [try] block raises, whether the repair call that opens the
    pass or the submission raised it: in both cases, when attempts are
    left and the handler's own repair call returns, the loop goes on with
    the next pass and the counter one higher. *)
Theorem try_block_failures_are_retried
    (E : env) (draft : str) (instruct token : value)
    (maxAttempts : nat) (v : vars) (t : trace) (y : str) :
  let req := code_request (VStr draft) instruct token in
  let next := mkVars (attempt v + 1) (success v) y in
  all [VStr draft; instruct; token] = true ->
  attempt v + 1 < maxAttempts ->
  llm E (length (posts t) + 1) req = Ok y ->
  (forall e,
     llm E (length (posts t)) req = Raise e ->
     isinstance e Exception = true ->
     retry_loop E draft instruct token maxAttempts v t
     = retry_loop E draft instruct token maxAttempts next
         (t ++ [EvPost req;
                EvPrint (OutRetrying (code_wrap e) (attempt v + 1) maxAttempts);
                EvPost req]))
  /\ (forall x e,
        llm E (length (posts t)) req = Ok x ->
        neo4j E (length (submissions t)) x = Raise e ->
        isinstance e Exception = true ->
        retry_loop E draft instruct token maxAttempts v t
        = retry_loop E draft instruct token maxAttempts next
            (t ++ [EvPost req; EvNeo x;
                   EvPrint (OutRetrying e (attempt v + 1) maxAttempts);
                   EvPost req])).
Proof.
  intros req next Hvalid Hlt Hy. split.
  - intros e He Hexc.
    assert (Htry : try_block E draft instruct token v t
                   = (Raise (code_wrap e), t ++ [EvPost req]))
      by (now apply try_block_llm_raise).
    erewrite pass_caught; try eassumption.
    + now rewrite <- app_assoc.
    + now apply code_wrap_Exception.
    + rewrite posts_app, length_app. exact Hy.
  - intros x e Hx He Hexc.
    assert (Htry : try_block E draft instruct token v t
                   = (Raise e, t ++ [EvPost req; EvNeo x]))
      by (now apply try_block_neo_raise).
    erewrite pass_caught; try eassumption.
    + now rewrite <- app_assoc.
    + rewrite posts_app, length_app. exact Hy.
Qed.

Lemma try_block_failures_are_retried_witness :
  let draft := text ["LINE1"; "LINE2"; "LINE3"] in
  let instr := VStr (lit "fix") in
  let tok := VStr (lit "tok") in
  let req := code_request (VStr draft) instr tok in
  let down := mkExn ConnectionError "connection refused" in
  let E1 := mkEnv (llm_down_first 1 (lit "MERGE (n)")) (neo_fail_first 0) in
  let E2 := mkEnv (llm_fixed (lit "MERGE (n)")) (neo_fail_first 1) in
  retry_loop E1 draft instr tok retries (mkVars 0 false []) []
  = retry_loop E1 draft instr tok retries (mkVars 1 false (lit "MERGE (n)"))
      [EvPost req; EvPrint (OutRetrying (code_wrap down) 1 retries); EvPost req]
  /\ retry_loop E2 draft instr tok retries (mkVars 0 false []) []
     = retry_loop E2 draft instr tok retries (mkVars 1 false (lit "MERGE (n)"))
         [EvPost req; EvNeo (lit "MERGE (n)");
          EvPrint (OutRetrying syntax_error 1 retries); EvPost req].
Proof.
  intros draft instr tok req down E1 E2.
  assert (Hlt : attempt (mkVars 0 false []) + 1 < retries)
    by (unfold retries; simpl; lia).
  split.
  - exact (proj1 (@try_block_failures_are_retried E1 draft instr tok retries
                    (mkVars 0 false []) [] (lit "MERGE (n)") eq_refl Hlt eq_refl)
             down eq_refl eq_refl).
  - exact (proj2 (@try_block_failures_are_retried E2 draft instr tok retries
                    (mkVars 0 false []) [] (lit "MERGE (n)") eq_refl Hlt eq_refl)
             (lit "MERGE (n)") syntax_error eq_refl eq_refl eq_refl).
Defined.

(** C3 as stated fails: the endpoint is down for the first repair call of
    the loop and up afterwards; the failure is caught, the next pass
    succeeds and the run ends normally. *)
Lemma llm_failure_is_fatal_counterexample :
  ~ (forall E draft instruct token maxAttempts final0 k rq e,
       let run := retry_section E draft instruct token maxAttempts final0 [] in
       nth_error (posts (snd run)) k = Some rq ->
       llm E k rq = Raise e ->
       exists e', fst run = Raise e').
Proof.
  intros H.
  destruct (H (mkEnv (llm_down_first 1 (lit "MERGE (n)")) (neo_fail_first 0))
              (text ["LINE1"; "LINE2"; "LINE3"]) (VStr (lit "fix")) (VStr (lit "tok"))
              retries [] 0
              (code_request (VStr (text ["LINE1"; "LINE2"; "LINE3"]))
                 (VStr (lit "fix")) (VStr (lit "tok")))
              (mkExn ConnectionError "connection refused")
              eq_refl eq_refl) as [e' He'].
  vm_compute in He'. discriminate.
Qed.

(** C9.  Every request the retry section sends, in the loop or in its
    handler, carries the same draft, the same instruction and the same
    token: the draft is read and never assigned.  And with well-formed
    arguments every pass of the loop opens with such a request, so the
    repair stage is invoked again, on that draft, at every attempt. *)
Theorem repair_requests_carry_the_draft
    (E : env) (draft : str) (instruct token : value) (maxAttempts : nat) :
  let req := code_request (VStr draft) instruct token in
  (forall final0 t0, exists u,
     snd (retry_section E draft instruct token maxAttempts final0 t0) = t0 ++ u
     /\ Forall (fun r => req_input r = VStr draft
                         /\ req_instruct r = instruct
                         /\ req_token r = token) (posts u))
  /\ (all [VStr draft; instruct; token] = true ->
      forall v t, attempt v < maxAttempts ->
      exists u,
        snd (retry_loop E draft instruct token maxAttempts v t)
        = t ++ EvPost req :: u
        /\ Forall (eq req) (posts u)).
Proof.
  intros req. split.
  - intros final0 t0.
    destruct (@sends_only_retry_section E draft instruct token maxAttempts final0 t0)
      as (u & Hu & Hp).
    exists u. split; [exact Hu|].
    eapply Forall_impl; [|exact Hp]. now intros r <-.
  - intros Hvalid v t Hlt. now apply pass_begins_with_repair.
Qed.

Lemma repair_requests_carry_the_draft_witness :
  let E := mkEnv (llm_fixed (lit "MERGE (n)")) neo_always_fail in
  let draft := text ["LINE1"; "LINE2"; "LINE3"] in
  let req := code_request (VStr draft) (VStr (lit "fix")) (VStr (lit "tok")) in
  exists u,
    snd (retry_loop E draft (VStr (lit "fix")) (VStr (lit "tok")) retries
           (mkVars 3 false []) [])
    = [] ++ EvPost req :: u
    /\ Forall (eq req) (posts u).
Proof.
  intros E draft req.
  refine (proj2 (@repair_requests_carry_the_draft E draft (VStr (lit "fix"))
                   (VStr (lit "tok")) retries) eq_refl (mkVars 3 false []) [] _).
  unfold retries. simpl. lia.
Defined.

(** * Further properties *)

(** ** More about [strip] *)

Section StripFacts.

Implicit Types (s t w l : str) (ls : list str) (c d : codepoint).

Lemma dropwhile_length (p : codepoint -> bool) s :
  length (dropwhile p s) <= length s.
Proof.
  induction s as [|c s IH]; simpl; [lia|].
  destruct (p c); simpl; lia.
Qed.

Lemma strip_length s : length (strip s) <= length s.
Proof.
  unfold strip, rstrip, lstrip. rewrite length_rev.
  etransitivity; [apply dropwhile_length|]. rewrite length_rev.
  apply dropwhile_length.
Qed.

(** What is left after [strip] ends with a code point that is not white
    space. *)
Lemma strip_last s :
  strip s = [] \/ exists q d, strip s = q ++ [d] /\ isspace d = false.
Proof.
  unfold strip, rstrip.
  destruct (dropwhile isspace (rev (lstrip s))) as [|d r] eqn:Hd.
  - now left.
  - right. exists (rev r), d. split; [reflexivity|].
    eapply dropwhile_head; eassumption.
Qed.

Lemma strip_idempotent s : strip (strip s) = strip s.
Proof.
  destruct (strip s) as [|c t] eqn:Hs; [reflexivity|].
  destruct (strip_last s) as [Hnil|(q & d & Hq & Hd)]; [congruence|].
  rewrite Hs in Hq. eapply strip_fixed; [|exact Hd|exact Hq].
  eapply strip_head; eassumption.
Qed.

Lemma dropwhile_app_all (p : codepoint -> bool) w s :
  forallb p w = true -> dropwhile p (w ++ s) = dropwhile p s.
Proof.
  induction w as [|c w IH]; simpl; [reflexivity|].
  destruct (p c); simpl; [exact IH|discriminate].
Qed.

Lemma forallb_rev (p : codepoint -> bool) w :
  forallb p w = true -> forallb p (rev w) = true.
Proof.
  rewrite !forallb_forall. intros H c Hc. apply H. now apply in_rev.
Qed.

Lemma rstrip_app_space s w : forallb isspace w = true -> rstrip (s ++ w) = rstrip s.
Proof.
  intros Hw. unfold rstrip. rewrite rev_app_distr.
  now rewrite dropwhile_app_all by now apply forallb_rev.
Qed.

Lemma lstrip_app s w :
  lstrip s <> [] -> lstrip (s ++ w) = lstrip s ++ w.
Proof.
  unfold lstrip. induction s as [|c s IH]; simpl; [congruence|].
  destruct (isspace c); [exact IH|reflexivity].
Qed.

Lemma lstrip_nil_all s : lstrip s = [] -> forallb isspace s = true.
Proof.
  unfold lstrip. induction s as [|c s IH]; simpl; [reflexivity|].
  destruct (isspace c); [exact IH|discriminate].
Qed.

(** White space around a string does not change what [strip] leaves. *)
Lemma strip_pad w1 s w2 :
  forallb isspace w1 = true -> forallb isspace w2 = true ->
  strip (w1 ++ s ++ w2) = strip s.
Proof.
  intros H1 H2. unfold strip at 1.
  replace (lstrip (w1 ++ s ++ w2)) with (lstrip (s ++ w2))
    by (unfold lstrip; now rewrite (@dropwhile_app_all isspace w1 (s ++ w2) H1)).
  destruct (lstrip s) as [|c t] eqn:Hs.
  - assert (Hall : forallb isspace (s ++ w2) = true).
    { rewrite forallb_app, H2, (lstrip_nil_all _ Hs). reflexivity. }
    unfold lstrip. rewrite dropwhile_all by assumption.
    unfold strip. now rewrite Hs.
  - rewrite lstrip_app by congruence. rewrite rstrip_app_space by assumption.
    reflexivity.
Qed.

Lemma join_snoc sep ls l :
  ls <> [] -> join sep (ls ++ [l]) = join sep ls ++ sep ++ l.
Proof.
  induction ls as [|a ls IH]; intros Hnil; [congruence|].
  destruct ls as [|b ls]; [reflexivity|].
  change (join sep ((a :: b :: ls) ++ [l]))
    with (a ++ sep ++ join sep ((b :: ls) ++ [l])).
  rewrite IH by discriminate.
  change (join sep (a :: b :: ls)) with (a ++ sep ++ join sep (b :: ls)).
  now rewrite <- !app_assoc.
Qed.

Lemma map_add_marker_inj ls1 ls2 :
  map add_marker ls1 = map add_marker ls2 -> ls1 = ls2.
Proof.
  revert ls2. induction ls1 as [|a ls1 IH]; intros [|b ls2]; simpl;
    try discriminate; [reflexivity|].
  intros [= Hab Hrest]. unfold add_marker in Hab.
  apply app_inv_tail in Hab. f_equal; [exact Hab|now apply IH].
Qed.

End StripFacts.

(** ** More about [special_delim_token] *)

Lemma special_delim_token_blank (s : str) :
  strip s = [] -> special_delim_token (VStr s) = Ok [].
Proof. intros Hs. unfold special_delim_token. now rewrite Hs. Qed.

Lemma join_marked_not_nil (s : str) :
  strip s <> [] -> join [LF] (map add_marker (split LF (strip s))) <> [].
Proof.
  intros Hne. destruct (strip s) as [|c t] eqn:Hs; [congruence|].
  destruct (join_marked_head _ Hs) as [u Hu]. rewrite Hs in Hu.
  rewrite Hu. discriminate.
Qed.

(** X1.  On every string [special_delim_token] returns, and what it returns
    neither starts nor ends with white space: it is a fixed point of
    [strip]; it is empty exactly when the input is empty once stripped. *)
Theorem normalize_output_is_stripped (s : str) :
  exists out,
    special_delim_token (VStr s) = Ok out
    /\ strip out = out
    /\ (out = [] <-> strip s = []).
Proof.
  destruct (strip s) as [|c t] eqn:Hs.
  - exists []. rewrite special_delim_token_blank by assumption.
    now repeat split.
  - assert (Hne : strip s <> []) by (rewrite Hs; discriminate).
    eexists. split; [now apply special_delim_token_lines|].
    split; [now apply strip_normalized|].
    pose proof (join_marked_not_nil _ Hne) as Hout. rewrite <- Hs.
    split; intros; contradiction.
Qed.

(** X2.  Two strings are normalized to the same text exactly when they are
    equal once stripped: the function forgets the white space around its
    input and nothing else. *)
Theorem normalize_equal_iff_stripped_equal (s1 s2 : str) :
  special_delim_token (VStr s1) = special_delim_token (VStr s2)
  <-> strip s1 = strip s2.
Proof.
  split.
  - intros Heq.
    destruct (strip s1) as [|c1 t1] eqn:Hs1; destruct (strip s2) as [|c2 t2] eqn:Hs2.
    + reflexivity.
    + exfalso. rewrite (special_delim_token_blank _ Hs1) in Heq.
      assert (Hne : strip s2 <> []) by (rewrite Hs2; discriminate).
      rewrite (special_delim_token_lines _ Hne) in Heq.
      injection Heq as Heq. symmetry in Heq. now apply (join_marked_not_nil _ Hne).
    + exfalso. rewrite (special_delim_token_blank _ Hs2) in Heq.
      assert (Hne : strip s1 <> []) by (rewrite Hs1; discriminate).
      rewrite (special_delim_token_lines _ Hne) in Heq.
      injection Heq as Heq. now apply (join_marked_not_nil _ Hne).
    + rewrite <- Hs1, <- Hs2.
      rewrite !special_delim_token_lines in Heq
        by (rewrite ?Hs1, ?Hs2; discriminate).
      injection Heq as Hj.
      apply (f_equal (split LF)) in Hj.
      rewrite !split_join_marked in Hj
        by (try apply split_not_nil; apply split_no_sep).
      apply map_add_marker_inj in Hj.
      rewrite <- (join_split LF (strip s1)), <- (join_split LF (strip s2)).
      now rewrite Hj.
  - intros Heq. unfold special_delim_token. now rewrite Heq.
Qed.

Lemma normalize_equal_iff_stripped_equal_witness :
  strip (text ["  a"; "b "; ""]) = strip (text ["a"; "b"])
  /\ special_delim_token (VStr (text ["  a"; "b "; ""]))
     = special_delim_token (VStr (text ["a"; "b"])).
Proof.
  split; [reflexivity|].
  exact (proj2 (normalize_equal_iff_stripped_equal
                  (text ["  a"; "b "; ""]) (text ["a"; "b"])) eq_refl).
Defined.

(** X3.  Both string functions ignore white space around their input:
    padding the input with white space on either side changes neither
    the normalized text nor the truncated query. *)
Theorem string_functions_ignore_padding (w1 s w2 : str) :
  forallb isspace w1 = true -> forallb isspace w2 = true ->
  special_delim_token (VStr (w1 ++ s ++ w2)) = special_delim_token (VStr s)
  /\ clean_cypher_query (w1 ++ s ++ w2) = clean_cypher_query s.
Proof.
  intros H1 H2. unfold special_delim_token, clean_cypher_query.
  now rewrite strip_pad.
Qed.

Lemma string_functions_ignore_padding_witness :
  forallb isspace (text [""; "  "]) = true
  /\ forallb isspace (text [" "; ""; ""]) = true
  /\ special_delim_token (VStr (text [""; "  "] ++ text ["a"; "b"] ++ text [" "; ""; ""]))
     = special_delim_token (VStr (text ["a"; "b"]))
  /\ clean_cypher_query (text [""; "  "] ++ text ["a"; "b"] ++ text [" "; ""; ""])
     = clean_cypher_query (text ["a"; "b"]).
Proof.
  split; [reflexivity|]. split; [reflexivity|].
  exact (string_functions_ignore_padding (text [""; "  "]) (text ["a"; "b"])
           (text [" "; ""; ""]) eq_refl eq_refl).
Defined.

(** X4.  The normalized text is longer than the stripped input by the
    twenty code points of the marker for each of its lines. *)
Theorem normalize_length (s : str) :
  strip s <> [] ->
  exists out,
    special_delim_token (VStr s) = Ok out
    /\ length out = length (strip s) + 20 * length (split LF (strip s)).
Proof.
  intros Hne. eexists. split; [now apply special_delim_token_lines|].
  rewrite join_marked_length, join_split. reflexivity.
Qed.

Lemma normalize_length_witness :
  strip (text [" a"; ""; "b"]) <> []
  /\ exists out,
       special_delim_token (VStr (text [" a"; ""; "b"])) = Ok out
       /\ length out = length (strip (text [" a"; ""; "b"]))
                       + 20 * length (split LF (strip (text [" a"; ""; "b"]))).
Proof.
  assert (H : strip (text [" a"; ""; "b"]) <> []) by (vm_compute; discriminate).
  split; [exact H|]. exact (normalize_length (text [" a"; ""; "b"]) H).
Defined.

(** ** More about [clean_cypher_query] *)

(** The lines of a text: some lines and a last one, none with a line
    feed, which joined give the text back. *)
Lemma split_last_line (t : str) :
  exists ls l,
    split LF t = ls ++ [l] /\ ~ In LF l /\ join [LF] (ls ++ [l]) = t.
Proof.
  pose proof (split_not_nil LF t) as Hnil.
  pose proof (split_no_sep LF t) as Hall.
  pose proof (join_split LF t) as Hjoin.
  destruct (@exists_last _ (split LF t) Hnil) as (ls & l & Hls).
  rewrite Hls in *. exists ls, l. repeat split; [|assumption].
  apply Forall_app in Hall. destruct Hall as [_ Hl]. now inversion Hl.
Qed.

(** X5.  For every draft, the truncated query is the stripped draft cut at
    its last line break: either the stripped draft has no line break and
    the result is empty, or the stripped draft is the result, a line
    feed, and a last line without line feed. *)
Theorem clean_cypher_query_cuts_at_last_break (s : str) :
  exists l,
    ~ In LF l
    /\ ((strip s = l /\ clean_cypher_query s = [])
        \/ strip s = clean_cypher_query s ++ LF :: l).
Proof.
  unfold clean_cypher_query.
  destruct (split_last_line (strip s)) as (ls & l & Hls & Hl & Hjoin).
  rewrite Hls, removelast_last.
  exists l. split; [exact Hl|].
  destruct ls as [|a ls].
  - left. now split.
  - right. rewrite <- Hjoin. apply join_snoc. discriminate.
Qed.

(** X6.  Truncation makes every non-empty draft strictly shorter. *)
Theorem clean_cypher_query_shrinks (s : str) :
  s <> [] -> length (clean_cypher_query s) < length s.
Proof.
  intros Hne. pose proof (strip_length s) as Hlen.
  unfold clean_cypher_query.
  destruct (split_last_line (strip s)) as (ls & l & Hls & _ & Hjoin).
  rewrite Hls, removelast_last.
  destruct ls as [|a ls].
  - destruct s; [congruence|simpl; lia].
  - rewrite <- Hjoin, join_snoc, !length_app in Hlen by discriminate.
    change (length [LF]) with 1 in Hlen. lia.
Qed.

Lemma clean_cypher_query_shrinks_witness :
  text ["MATCH (n)"; "RETURN n"] <> []
  /\ length (clean_cypher_query (text ["MATCH (n)"; "RETURN n"]))
     < length (text ["MATCH (n)"; "RETURN n"]).
Proof.
  assert (H : text ["MATCH (n)"; "RETURN n"] <> []) by discriminate.
  split; [exact H|]. exact (clean_cypher_query_shrinks H).
Defined.

(** ** More about the two LLM functions *)

Section LlmOutcomes.

Variable E : env.

Lemma dispatch_text_handlers e t :
  dispatch text_handlers e t = (Raise (text_wrap e), t).
Proof.
  unfold text_handlers, text_wrap. simpl.
  destruct (isinstance e HTTPError); [reflexivity|].
  destruct (isinstance e RequestException); [reflexivity|].
  destruct (isinstance e Exception); reflexivity.
Qed.

Lemma generate_text_ok a b c t x :
  all [a; b; c] = true ->
  llm E (length (posts t)) (text_request a b c) = Ok x ->
  generate_text_granite_instruct E a b c t = (Ok x, t ++ [EvPost (text_request a b c)]).
Proof.
  intros Hall Hx. unfold generate_text_granite_instruct. rewrite Hall. simpl.
  apply try_except_ok. unfold post. now rewrite Hx.
Qed.

Lemma generate_text_raise a b c t e :
  all [a; b; c] = true ->
  llm E (length (posts t)) (text_request a b c) = Raise e ->
  generate_text_granite_instruct E a b c t
  = (Raise (text_wrap e), t ++ [EvPost (text_request a b c)]).
Proof.
  intros Hall He. unfold generate_text_granite_instruct. rewrite Hall. simpl.
  erewrite try_except_raise; [apply dispatch_text_handlers|].
  unfold post. now rewrite He.
Qed.

(** The class of what the code wrapper raises. *)
Lemma code_wrap_class e :
  isinstance e Exception = true ->
  exn_cls (code_wrap e) = Exception
  /\ exists prefix, exn_msg (code_wrap e) = (prefix ++ exn_msg e)%string.
Proof.
  intros He. unfold code_wrap.
  destruct (isinstance e HTTPError);
    [split; [reflexivity|eexists; reflexivity]|].
  destruct (isinstance e RequestException);
    [split; [reflexivity|eexists; reflexivity]|].
  rewrite He. split; [reflexivity|eexists; reflexivity].
Qed.

Lemma code_wrap_other e : isinstance e Exception = false -> code_wrap e = e.
Proof. destruct e as [[] m]; intros H; try discriminate H; reflexivity. Qed.

Lemma text_wrap_other e : isinstance e Exception = false -> text_wrap e = e.
Proof. destruct e as [[] m]; intros H; try discriminate H; reflexivity. Qed.

(** The class of what the text wrapper raises, against the class of the
    cause. *)
Lemma text_wrap_class e :
  isinstance e Exception = true ->
  In (exn_cls (text_wrap e)) [HTTPError; RequestException; Exception]
  /\ isinstance (text_wrap e) HTTPError = isinstance e HTTPError
  /\ isinstance (text_wrap e) RequestException = isinstance e RequestException
  /\ exists prefix, exn_msg (text_wrap e) = (prefix ++ exn_msg e)%string.
Proof.
  destruct e as [[] m]; intros H; try discriminate H;
    (split; [simpl; tauto|]); (split; [reflexivity|]); (split; [reflexivity|]);
    eexists; reflexivity.
Qed.

End LlmOutcomes.

(** X7.  With three non-empty arguments [generate_code_granite_instruct]
    sends exactly one request, built from them.  It returns the generated
    text when the exchange succeeds; when the exchange raises something
    below [Exception], whatever its class, a plain [Exception] comes out
    (never an [HTTPError] or a [RequestException]) whose message ends with
    the message of the cause; anything else passes through unchanged. *)
Theorem generate_code_outcomes (E : env) (a b c : value) (t : trace) :
  all [a; b; c] = true ->
  snd (generate_code_granite_instruct E a b c t) = t ++ [EvPost (code_request a b c)]
  /\ (forall x,
        llm E (length (posts t)) (code_request a b c) = Ok x ->
        fst (generate_code_granite_instruct E a b c t) = Ok x)
  /\ (forall e,
        llm E (length (posts t)) (code_request a b c) = Raise e ->
        exists r,
          fst (generate_code_granite_instruct E a b c t) = Raise r
          /\ (isinstance e Exception = true ->
              exn_cls r = Exception
              /\ isinstance r RequestException = false
              /\ isinstance r HTTPError = false
              /\ exists prefix, exn_msg r = (prefix ++ exn_msg e)%string)
          /\ (isinstance e Exception = false -> r = e)).
Proof.
  intros Hall. split; [|split].
  - destruct (llm E (length (posts t)) (code_request a b c)) as [x|e] eqn:Hl.
    + now rewrite (generate_code_ok _ _ _ _ _ Hall Hl).
    + now rewrite (generate_code_raise _ _ _ _ _ Hall Hl).
  - intros x Hl. now rewrite (generate_code_ok _ _ _ _ _ Hall Hl).
  - intros e Hl. rewrite (generate_code_raise _ _ _ _ _ Hall Hl).
    exists (code_wrap e). split; [reflexivity|]. split.
    + intros He. destruct (code_wrap_class e He) as [Hcls Hmsg].
      unfold isinstance. rewrite Hcls. repeat split; assumption.
    + apply code_wrap_other.
Qed.

Lemma generate_code_outcomes_witness :
  let E := mkEnv (llm_down_first 1 (lit "MERGE (n)")) (neo_fail_first 0) in
  let a := VStr (lit "draft") in
  let b := VStr (lit "fix") in
  let c := VStr (lit "tok") in
  all [a; b; c] = true
  /\ snd (generate_code_granite_instruct E a b c []) = [] ++ [EvPost (code_request a b c)]
  /\ exists r,
       fst (generate_code_granite_instruct E a b c []) = Raise r
       /\ exn_cls r = Exception.
Proof.
  intros E a b c.
  destruct (@generate_code_outcomes E a b c [] eq_refl) as (Htr & _ & Hraise).
  split; [reflexivity|]. split; [exact Htr|].
  destruct (Hraise (mkExn ConnectionError "connection refused") eq_refl)
    as (r & Hr & Hcls & _).
  exists r. split; [exact Hr|]. exact (proj1 (Hcls eq_refl)).
Defined.

(** X8.  With three non-empty arguments [generate_text_granite_instruct]
    sends exactly one request, built from them.  It returns the generated
    text when the exchange succeeds; when the exchange raises something
    below [Exception], what comes out is an [HTTPError], a
    [RequestException] or a plain [Exception], it is an [HTTPError]
    (a [RequestException]) exactly when the cause is one, and its message
    ends with the message of the cause; anything else passes through. *)
Theorem generate_text_outcomes (E : env) (a b c : value) (t : trace) :
  all [a; b; c] = true ->
  snd (generate_text_granite_instruct E a b c t) = t ++ [EvPost (text_request a b c)]
  /\ (forall x,
        llm E (length (posts t)) (text_request a b c) = Ok x ->
        fst (generate_text_granite_instruct E a b c t) = Ok x)
  /\ (forall e,
        llm E (length (posts t)) (text_request a b c) = Raise e ->
        exists r,
          fst (generate_text_granite_instruct E a b c t) = Raise r
          /\ (isinstance e Exception = true ->
              In (exn_cls r) [HTTPError; RequestException; Exception]
              /\ isinstance r HTTPError = isinstance e HTTPError
              /\ isinstance r RequestException = isinstance e RequestException
              /\ exists prefix, exn_msg r = (prefix ++ exn_msg e)%string)
          /\ (isinstance e Exception = false -> r = e)).
Proof.
  intros Hall. split; [|split].
  - destruct (llm E (length (posts t)) (text_request a b c)) as [x|e] eqn:Hl.
    + now rewrite (generate_text_ok _ _ _ _ _ Hall Hl).
    + now rewrite (generate_text_raise _ _ _ _ _ Hall Hl).
  - intros x Hl. now rewrite (generate_text_ok _ _ _ _ _ Hall Hl).
  - intros e Hl. rewrite (generate_text_raise _ _ _ _ _ Hall Hl).
    exists (text_wrap e). split; [reflexivity|]. split.
    + apply text_wrap_class.
    + apply text_wrap_other.
Qed.

Lemma generate_text_outcomes_witness :
  let E := mkEnv (llm_down_first 1 (lit "themes")) (neo_fail_first 0) in
  let a := VStr (lit "extract") in
  let b := VStr (lit "document") in
  let c := VStr (lit "tok") in
  all [a; b; c] = true
  /\ snd (generate_text_granite_instruct E a b c []) = [] ++ [EvPost (text_request a b c)]
  /\ exists r,
       fst (generate_text_granite_instruct E a b c []) = Raise r
       /\ isinstance r RequestException = true.
Proof.
  intros E a b c.
  destruct (@generate_text_outcomes E a b c [] eq_refl) as (Htr & _ & Hraise).
  split; [reflexivity|]. split; [exact Htr|].
  destruct (Hraise (mkExn ConnectionError "connection refused") eq_refl)
    as (r & Hr & Hcls & _).
  exists r. split; [exact Hr|].
  destruct (Hcls eq_refl) as (_ & _ & Hreq & _). exact Hreq.
Defined.

(** ** Bounds on what a computation adds to the trace *)

Section WithinFacts.

Variable E : env.

Lemma within_ret {A} (a : A) : within 0 0 (ret a).
Proof.
  intros t. exists []. simpl. rewrite app_nil_r. repeat split; auto.
Qed.

Lemma within_raise {A} (e : exn) : within 0 0 (@raise A e).
Proof.
  intros t. exists []. simpl. rewrite app_nil_r. repeat split; auto.
Qed.

Lemma within_lift {A} (r : result A) : within 0 0 (lift r).
Proof.
  intros t. exists []. simpl. rewrite app_nil_r. repeat split; auto.
Qed.

Lemma within_print o : o <> OutTruncated -> within 0 0 (print o).
Proof.
  intros Ho t. exists [EvPrint o]. simpl. repeat split; auto.
  intros [H|[]]. congruence.
Qed.

Lemma within_query_neo q : within 0 1 (query_neo E q).
Proof. intros t. exists [EvNeo q]. simpl. repeat split; auto. Qed.

Lemma within_post r : within 1 0 (post E r).
Proof. intros t. exists [EvPost r]. simpl. repeat split; auto. Qed.

Lemma within_weaken {A} (m : M A) a b a' b' :
  within a b m -> a <= a' -> b <= b' -> within a' b' m.
Proof.
  intros Hm Ha Hb t. destruct (Hm t) as (u & Hu & Hp & Hs & Hn).
  exists u. repeat split; auto; lia.
Qed.

Lemma within_bind {A B} (m : M A) (k : A -> M B) a1 b1 a2 b2 :
  within a1 b1 m -> (forall x, within a2 b2 (k x)) ->
  within (a1 + a2) (b1 + b2) (bind m k).
Proof.
  intros Hm Hk t. unfold bind. destruct (Hm t) as (u1 & Hu1 & Hp1 & Hs1 & Hn1).
  destruct (m t) as [[x|e] t1]; simpl in Hu1; subst t1.
  - destruct (Hk x (t ++ u1)) as (u2 & Hu2 & Hp2 & Hs2 & Hn2).
    exists (u1 ++ u2). rewrite Hu2, app_assoc.
    rewrite posts_app, submissions_app, printed_app, !length_app.
    repeat split; try lia.
    intros Hin. apply in_app_or in Hin. tauto.
  - exists u1. simpl. repeat split; auto; lia.
Qed.

Lemma within_dispatch {A} (hs : handlers A) e a b :
  Forall (fun ch => forall e', within a b (snd ch e')) hs ->
  within a b (dispatch hs e).
Proof.
  induction 1 as [|[c h] hs Hh _ IH]; simpl.
  - eapply within_weaken; [apply within_raise|lia..].
  - destruct (isinstance e c); [apply Hh|exact IH].
Qed.

Lemma within_try_except {A} (m : M A) (hs : handlers A) a1 b1 a2 b2 :
  within a1 b1 m ->
  Forall (fun ch => forall e, within a2 b2 (snd ch e)) hs ->
  within (a1 + a2) (b1 + b2) (try_except m hs).
Proof.
  intros Hm Hhs t. unfold try_except.
  destruct (Hm t) as (u1 & Hu1 & Hp1 & Hs1 & Hn1).
  destruct (m t) as [[x|e] t1]; simpl in Hu1; subst t1.
  - exists u1. simpl. repeat split; auto; lia.
  - destruct (within_dispatch e Hhs (t ++ u1)) as (u2 & Hu2 & Hp2 & Hs2 & Hn2).
    exists (u1 ++ u2). rewrite Hu2, app_assoc.
    rewrite posts_app, submissions_app, printed_app, !length_app.
    repeat split; try lia.
    intros Hin. apply in_app_or in Hin. tauto.
Qed.

Lemma within_handler {A} (c : exn_class) (h : exn -> M A) a b :
  (forall e, within a b (h e)) ->
  Forall (fun ch : exn_class * (exn -> M A) => forall e, within a b (snd ch e))
    [(c, h)].
Proof. intros Hh. constructor; [exact Hh|constructor]. Qed.

Lemma within_generate_code a b c : within 1 0 (generate_code_granite_instruct E a b c).
Proof.
  unfold generate_code_granite_instruct.
  destruct (negb (all [a; b; c])).
  - eapply within_weaken; [apply within_raise|lia..].
  - apply within_weaken with (a := 1 + 0) (b := 0 + 0); [|lia..].
    apply within_try_except; [apply within_post|].
    repeat constructor; intros e; apply within_raise.
Qed.

Lemma within_generate_text a b c : within 1 0 (generate_text_granite_instruct E a b c).
Proof.
  unfold generate_text_granite_instruct.
  destruct (negb (all [a; b; c])).
  - eapply within_weaken; [apply within_raise|lia..].
  - apply within_weaken with (a := 1 + 0) (b := 0 + 0); [|lia..].
    apply within_try_except; [apply within_post|].
    repeat constructor; intros e; apply within_raise.
Qed.

End WithinFacts.

(** ** The retry loop against arbitrary collaborators *)

Section AnyRun.

Variable E : env.
Variable draft : str.
Variables instruct token : value.

Local Abbreviation req := (code_request (VStr draft) instruct token).
Local Abbreviation loop := (retry_loop E draft instruct token).

Lemma bind_inv_ok {A B} (m : M A) (k : A -> M B) t b t' :
  bind m k t = (Ok b, t') ->
  exists a t1, m t = (Ok a, t1) /\ k a t1 = (Ok b, t').
Proof.
  unfold bind. destruct (m t) as [[a|e] t1]; [eauto|discriminate].
Qed.

Lemma repair_inv_ok t x t0 :
  repair E draft instruct token t = (Ok x, t0) ->
  llm E (length (posts t)) req = Ok x /\ t0 = t ++ [EvPost req].
Proof.
  unfold repair. destruct (all [VStr draft; instruct; token]) eqn:Hall.
  - destruct (llm E (length (posts t)) req) as [y|e] eqn:Hl.
    + rewrite (generate_code_ok _ _ _ _ _ Hall Hl). now intros [= -> <-].
    + rewrite (generate_code_raise _ _ _ _ _ Hall Hl). discriminate.
  - rewrite generate_code_invalid by assumption. discriminate.
Qed.

Lemma try_block_inv_ok v t f t' :
  try_block E draft instruct token v t = (Ok f, t') ->
  exists x,
    f = Break (mkVars (attempt v) true x)
    /\ llm E (length (posts t)) req = Ok x
    /\ neo4j E (length (submissions t)) x = Ok tt
    /\ t' = t ++ [EvPost req; EvNeo x; EvPrint OutSuccess].
Proof.
  unfold try_block. intros H.
  apply bind_inv_ok in H. destruct H as (x & t1 & Hrep & H).
  apply repair_inv_ok in Hrep. destruct Hrep as [Hl ->].
  apply bind_inv_ok in H. destruct H as ([] & t2 & Hq & H).
  unfold query_neo in Hq. injection Hq as Hq <-.
  rewrite submissions_app, length_app, Nat.add_0_r in Hq.
  unfold bind, print, emit, ret in H. injection H as <- <-.
  exists x. repeat split; try assumption. now rewrite <- !app_assoc.
Qed.

Lemma except_block_inv_ok n v e t f t' :
  except_block E draft instruct token n v e t = (Ok f, t') ->
  exists y,
    f = Continue y
    /\ attempt v + 1 <> n
    /\ llm E (length (posts t)) req = Ok y
    /\ t' = t ++ [EvPrint (OutRetrying e (attempt v + 1) n); EvPost req].
Proof.
  unfold except_block. intros H.
  apply bind_inv_ok in H. destruct H as ([] & t1 & Hpr & H).
  unfold print, emit in Hpr. injection Hpr as <-.
  apply bind_inv_ok in H. destruct H as (y & t2 & Hrep & H).
  apply repair_inv_ok in Hrep. destruct Hrep as [Hl ->].
  rewrite posts_app, length_app, Nat.add_0_r in Hl.
  apply bind_inv_ok in H. destruct H as ([] & t3 & Hchk & H).
  unfold check_exhausted in Hchk.
  destruct (Nat.eqb_spec (attempt v + 1) n) as [Heq|Hne]; [discriminate|].
  injection Hchk as <-. injection H as <- <-.
  exists y. repeat split; try assumption. now rewrite <- app_assoc.
Qed.

(** The three ways one pass can end: the submission was accepted and the
    loop returns; or the pass raises; or the failure was caught, attempts
    are left, and the loop goes on. *)
Lemma pass_cases n v t :
  attempt v < n ->
  (exists x,
     neo4j E (length (submissions t)) x = Ok tt
     /\ loop n v t
        = (Ok (mkVars (attempt v) true x),
           t ++ [EvPost req; EvNeo x; EvPrint OutSuccess]))
  \/ (exists e t', loop n v t = (Raise e, t'))
  \/ (exists y t1,
        attempt v + 1 < n
        /\ loop n v t = loop n (mkVars (attempt v + 1) (success v) y) t1).
Proof.
  intros Hlt.
  pose proof (@retry_loop_step E draft instruct token n v t Hlt) as Hstep.
  unfold bind at 1, try_except in Hstep.
  destruct (try_block E draft instruct token v t) as [[f|e] t1] eqn:Htry.
  - apply try_block_inv_ok in Htry.
    destruct Htry as (x & -> & _ & Hq & ->). left. exists x. now split.
  - cbn [dispatch] in Hstep. destruct (isinstance e Exception).
    + destruct (except_block E draft instruct token n v e t1) as [[g|e'] t2] eqn:Hex.
      * apply except_block_inv_ok in Hex.
        destruct Hex as (y & -> & Hne & _ & ->).
        right. right. exists y. eexists. split; [lia|exact Hstep].
      * right. left. exists e', t2. exact Hstep.
    + right. left. exists e, t1. exact Hstep.
Qed.

(** The loop returns only through its [break]: with [success] set, on a
    query that the database has just accepted. *)
Lemma loop_returns_accepted n k :
  forall v t v' t',
    n - attempt v = k -> attempt v < n ->
    loop n v t = (Ok v', t') ->
    success v' = true
    /\ exists t0,
         t' = t0 ++ [EvPost req; EvNeo (cypher_query_final v'); EvPrint OutSuccess]
         /\ neo4j E (length (submissions t0)) (cypher_query_final v') = Ok tt.
Proof.
  induction k as [|k IH]; intros v t v' t' Hk Hlt Hrun; [lia|].
  destruct (@pass_cases n v t Hlt) as [(x & Hq & Hpass)|[(e & t1 & Hpass)|(y & t1 & Hlt' & Hpass)]].
  - rewrite Hpass in Hrun. injection Hrun as <- <-.
    split; [reflexivity|]. exists t. now split.
  - rewrite Hpass in Hrun. discriminate.
  - rewrite Hpass in Hrun.
    apply (IH (mkVars (attempt v + 1) (success v) y) t1 v' t');
      [simpl; lia|simpl; exact Hlt'|exact Hrun].
Qed.

(** The value [cypher_query_final] has on entry is never read. *)
Lemma loop_ignores_final n a s f f' t :
  a < n -> loop n (mkVars a s f) t = loop n (mkVars a s f') t.
Proof.
  intros Hlt. rewrite !retry_loop_step by assumption. reflexivity.
Qed.

Lemma within_repair : within 1 0 (repair E draft instruct token).
Proof. apply within_generate_code. Qed.

Lemma within_try_block v : within 1 1 (try_block E draft instruct token v).
Proof.
  unfold try_block.
  apply within_weaken with (a := 1 + (0 + (0 + 0))) (b := 0 + (1 + (0 + 0)));
    [|lia..].
  apply within_bind; [apply within_repair|intros final].
  apply within_bind; [apply within_query_neo|intros _].
  apply within_bind; [apply within_print; discriminate|intros _].
  apply within_ret.
Qed.

Lemma within_check_exhausted n a : within 0 0 (check_exhausted n a).
Proof.
  unfold check_exhausted. destruct (a =? n)%nat; [|apply within_ret].
  apply within_weaken with (a := 0 + 0) (b := 0 + 0); [|lia..].
  apply within_bind; [apply within_print; discriminate|intros _; apply within_raise].
Qed.

Lemma within_except_block n v e :
  within 1 0 (except_block E draft instruct token n v e).
Proof.
  unfold except_block.
  apply within_weaken with (a := 0 + (1 + (0 + 0))) (b := 0 + (0 + (0 + 0)));
    [|lia..].
  apply within_bind; [apply within_print; discriminate|intros _].
  apply within_bind; [apply within_repair|intros final].
  apply within_bind; [apply within_check_exhausted|intros _].
  apply within_ret.
Qed.

(** Each pass costs at most two requests and one submission. *)
Lemma within_retry_loop n v :
  within (2 * (n - attempt v)) (n - attempt v) (loop n v).
Proof.
  remember (n - attempt v) as k eqn:Hk.
  revert v Hk. induction k as [|k IH]; intros v Hk t.
  - rewrite retry_loop_done by lia. apply within_ret.
  - rewrite retry_loop_step by lia. revert t.
    apply within_weaken with (a := (1 + 1) + 2 * k) (b := (1 + 0) + k); [|lia..].
    apply within_bind.
    + apply within_try_except; [apply within_try_block|].
      apply within_handler. intros e. apply within_except_block.
    + intros [v'|final].
      * eapply within_weaken; [apply within_ret|lia..].
      * apply IH. simpl. lia.
Qed.

(** With a positive bound the retry section is its loop: the block after
    it is not entered. *)
Lemma retry_section_is_loop n final0 t :
  0 < n ->
  snd (retry_section E draft instruct token n final0 t)
  = snd (loop n (mkVars 0 false final0) t)
  /\ (forall v t', loop n (mkVars 0 false final0) t = (Ok v, t') ->
      retry_section E draft instruct token n final0 t = (Ok tt, t'))
  /\ (forall e t', loop n (mkVars 0 false final0) t = (Raise e, t') ->
      retry_section E draft instruct token n final0 t = (Raise e, t')).
Proof.
  intros Hpos. unfold retry_section, bind.
  destruct (loop n (mkVars 0 false final0) t) as [[v|e] t'] eqn:Hrun.
  - destruct (@loop_returns_accepted n n (mkVars 0 false final0) t v t')
      as [Hs _]; [simpl; lia|exact Hpos|exact Hrun|].
    rewrite Hs. simpl. repeat split; [now intros ? ? [= <- <-]|discriminate].
  - simpl. repeat split; [discriminate|now intros ? ? [= <- <-]].
Qed.

End AnyRun.

(** ** More about the retry section *)

Section RetrySectionFacts.

Variable E : env.
Variable draft : str.
Variables instruct token : value.

Local Abbreviation req := (code_request (VStr draft) instruct token).

Lemma within_retry_section n final0 :
  0 < n -> within (2 * n) n (retry_section E draft instruct token n final0).
Proof.
  intros Hpos t.
  destruct (@retry_section_is_loop E draft instruct token n final0 t Hpos) as [-> _].
  destruct (@within_retry_loop E draft instruct token n (mkVars 0 false final0) t)
    as (u & Hu & Hp & Hs & Hn).
  simpl in Hp, Hs. rewrite Nat.sub_0_r in Hs. exists u.
  repeat split; try assumption; lia.
Qed.

(** What the block after the loop adds to the trace. *)
Lemma fallback_run t :
  let q := clean_cypher_query draft in
  let t1 := t ++ [EvPrint OutTruncated; EvNeo q] in
  match neo4j E (length (submissions t)) q with
  | Ok _ => fallback E draft t = (Ok tt, t1)
  | Raise e =>
      if isinstance e Exception
      then fallback E draft t = (Ok tt, t1 ++ [EvPrint (OutError e)])
      else fallback E draft t = (Raise e, t1)
  end.
Proof.
  intros q t1. unfold fallback, bind, print, emit, try_except, query_neo.
  rewrite submissions_app, length_app, Nat.add_0_r.
  fold q. subst t1. rewrite <- app_assoc. simpl app.
  destruct (neo4j E (length (submissions t)) q) as [[]|e]; [reflexivity|].
  cbn [dispatch]. destruct (isinstance e Exception); reflexivity.
Qed.

End RetrySectionFacts.

(** X9.  The block that tries the truncated draft is entered exactly when
    the bound on the attempts is zero: for a positive bound, whatever the
    endpoint and the database do, the retry section never prints the line
    that announces it. *)
Theorem fallback_runs_only_without_attempts
    (E : env) (draft : str) (instruct token : value)
    (n : nat) (final0 : str) (t : trace) :
  exists u,
    snd (retry_section E draft instruct token n final0 t) = t ++ u
    /\ (In OutTruncated (printed u) <-> n = 0).
Proof.
  destruct n as [|n].
  - unfold retry_section, bind. rewrite retry_loop_done by (simpl; lia).
    cbn [success negb].
    pose proof (fallback_run E draft t) as Hf. cbv zeta in Hf.
    destruct (neo4j E (length (submissions t)) (clean_cypher_query draft)) as [[]|e].
    + rewrite Hf. eexists. split; [reflexivity|]. simpl. tauto.
    + destruct (isinstance e Exception); rewrite Hf.
      * rewrite <- app_assoc. eexists. split; [reflexivity|]. simpl. tauto.
      * eexists. split; [reflexivity|]. simpl. tauto.
  - destruct (@within_retry_section E draft instruct token (S n) final0
                ltac:(lia) t) as (u & Hu & _ & _ & Hn).
    exists u. split; [exact Hu|]. split; [contradiction|discriminate].
Qed.

(** X10.  Bounded effort: for a positive bound [n], whatever the endpoint
    and the database do, the retry section sends at most [2 * n] requests
    and submits at most [n] scripts. *)
Theorem retry_section_bounded
    (E : env) (draft : str) (instruct token : value)
    (n : nat) (final0 : str) (t : trace) :
  0 < n ->
  exists u,
    snd (retry_section E draft instruct token n final0 t) = t ++ u
    /\ length (posts u) <= 2 * n
    /\ length (submissions u) <= n.
Proof.
  intros Hpos.
  destruct (@within_retry_section E draft instruct token n final0 Hpos t)
    as (u & Hu & Hp & Hs & _).
  exists u. repeat split; assumption.
Qed.

Lemma retry_section_bounded_witness :
  let E := mkEnv (llm_down_first 3 (lit "MERGE (n)")) (neo_fail_first 2) in
  exists u,
    snd (retry_section E (text ["LINE1"; "LINE2"]) (VStr (lit "fix")) (VStr (lit "tok"))
           retries [] [])
    = [] ++ u
    /\ length (posts u) <= 2 * retries
    /\ length (submissions u) <= retries.
Proof.
  intros E.
  apply (@retry_section_bounded E (text ["LINE1"; "LINE2"]) (VStr (lit "fix"))
           (VStr (lit "tok")) retries [] []).
  unfold retries. lia.
Defined.

(** X11.  When the loop returns, [success] is set, the query it leaves in
    [cypher_query_final] is the last script that was submitted, the
    database accepted that submission, and the last line printed reports
    the success. *)
Theorem loop_returns_accepted_query
    (E : env) (draft : str) (instruct token : value)
    (n : nat) (v v' : vars) (t t' : trace) :
  attempt v < n ->
  retry_loop E draft instruct token n v t = (Ok v', t') ->
  success v' = true
  /\ last (submissions t') [] = cypher_query_final v'
  /\ neo4j E (length (submissions t') - 1) (cypher_query_final v') = Ok tt
  /\ last (printed t') OutMaxRetries = OutSuccess.
Proof.
  intros Hlt Hrun.
  destruct (@loop_returns_accepted E draft instruct token n (n - attempt v)
              v t v' t' eq_refl Hlt Hrun) as (Hs & t0 & -> & Hq).
  split; [exact Hs|].
  rewrite submissions_app, printed_app, length_app. simpl.
  rewrite !last_last. repeat split.
  replace (length (submissions t0) + 1 - 1) with (length (submissions t0)) by lia.
  exact Hq.
Qed.

Lemma loop_returns_accepted_query_witness :
  let E := mkEnv (llm_fixed (lit "MERGE (n)")) (neo_fail_first 1) in
  let draft := text ["LINE1"; "LINE2"] in
  let run := retry_loop E draft (VStr (lit "fix")) (VStr (lit "tok")) retries
               (mkVars 0 false []) [] in
  fst run = Ok (mkVars 1 true (lit "MERGE (n)"))
  /\ last (submissions (snd run)) [] = lit "MERGE (n)"
  /\ neo4j E (length (submissions (snd run)) - 1) (lit "MERGE (n)") = Ok tt.
Proof.
  intros E draft run.
  assert (Hlt : attempt (mkVars 0 false []) < retries) by (unfold retries; simpl; lia).
  assert (Hrun : retry_loop E draft (VStr (lit "fix")) (VStr (lit "tok")) retries
                   (mkVars 0 false []) []
                 = (Ok (mkVars 1 true (lit "MERGE (n)")), snd run)) by reflexivity.
  destruct (loop_returns_accepted_query _ _ _ _ _ _ Hlt Hrun) as (_ & Hl & Hq & _).
  split; [reflexivity|]. split; [exact Hl|exact Hq].
Defined.

(** X12.  The query repaired before the loop (the [cypher_query_final] the
    loop starts with) is never read: the retry section does the same,
    event for event, whatever that value is. *)
Theorem retry_section_ignores_first_repair
    (E : env) (draft : str) (instruct token : value)
    (n : nat) (final0 final0' : str) (t : trace) :
  retry_section E draft instruct token n final0 t
  = retry_section E draft instruct token n final0' t.
Proof.
  unfold retry_section, bind. destruct n as [|n].
  - rewrite !retry_loop_done by (simpl; lia). reflexivity.
  - now rewrite (@loop_ignores_final E draft instruct token (S n) 0 false
                   final0 final0' t) by lia.
Qed.

(** X13.  The block after the loop, taken by itself: it prints its line,
    submits the truncated draft once and sends no request; a refusal that
    is an [Exception] is printed and swallowed, so the block ends
    normally; anything else propagates.  For a draft without line break
    the script it submits is the empty string. *)
Theorem fallback_submits_truncated_draft_once
    (E : env) (draft : str) (t : trace) :
  let q := clean_cypher_query draft in
  let t1 := t ++ [EvPrint OutTruncated; EvNeo q] in
  match neo4j E (length (submissions t)) q with
  | Ok _ => fallback E draft t = (Ok tt, t1)
  | Raise e =>
      if isinstance e Exception
      then fallback E draft t = (Ok tt, t1 ++ [EvPrint (OutError e)])
      else fallback E draft t = (Raise e, t1)
  end
  /\ submissions (snd (fallback E draft t)) = submissions t ++ [q]
  /\ posts (snd (fallback E draft t)) = posts t
  /\ (~ In LF (strip draft) -> q = []).
Proof.
  intros q t1. pose proof (fallback_run E draft t) as Hf. cbv zeta in Hf.
  fold q in Hf. fold t1 in Hf. split; [exact Hf|].
  split; [|split].
  - revert Hf. destruct (neo4j E (length (submissions t)) q) as [[]|e];
      [|destruct (isinstance e Exception)]; intros ->; subst t1;
      cbn [snd]; rewrite ?submissions_app; simpl; now rewrite ?app_nil_r.
  - revert Hf. destruct (neo4j E (length (submissions t)) q) as [[]|e];
      [|destruct (isinstance e Exception)]; intros ->; subst t1;
      cbn [snd]; rewrite ?posts_app; simpl; now rewrite ?app_nil_r.
  - intros Hs. subst q. unfold clean_cypher_query. now rewrite split_single.
Qed.

Lemma fallback_submits_truncated_draft_once_witness :
  let E := mkEnv (llm_fixed (lit "MERGE (n)")) neo_always_fail in
  ~ In LF (strip (lit "MATCH (n) RETURN n"))
  /\ fallback E (lit "MATCH (n) RETURN n") []
     = (Ok tt, [EvPrint OutTruncated; EvNeo []; EvPrint (OutError syntax_error)]).
Proof.
  intros E.
  assert (H : ~ In LF (strip (lit "MATCH (n) RETURN n")))
    by (vm_compute; intuition discriminate).
  split; [exact H|].
  pose proof (fallback_submits_truncated_draft_once E (lit "MATCH (n) RETURN n") [])
    as (Hrun & _ & _ & Hq).
  exact Hrun.
Defined.

(** X14.  The repair call in the handler is not protected: when a pass
    has been refused by the database and the endpoint then fails for the
    handler's request, the loop ends at once with that failure, however
    many attempts are left. *)
Theorem handler_failure_ends_the_loop
    (E : env) (draft : str) (instruct token : value)
    (n : nat) (v : vars) (t : trace) (x : str) (e e' : exn) :
  let req := code_request (VStr draft) instruct token in
  all [VStr draft; instruct; token] = true ->
  attempt v < n ->
  llm E (length (posts t)) req = Ok x ->
  neo4j E (length (submissions t)) x = Raise e ->
  isinstance e Exception = true ->
  llm E (length (posts t) + 1) req = Raise e' ->
  retry_loop E draft instruct token n v t
  = (Raise (code_wrap e'),
     t ++ [EvPost req; EvNeo x;
           EvPrint (OutRetrying e (attempt v + 1) n); EvPost req]).
Proof.
  intros req Hvalid Hlt Hx He Hexc He'.
  assert (Htry : try_block E draft instruct token v t
                 = (Raise e, t ++ [EvPost req; EvNeo x]))
    by (now apply try_block_neo_raise).
  erewrite pass_handler_raise; try eassumption.
  - now rewrite <- app_assoc.
  - rewrite posts_app, length_app. exact He'.
Qed.

Lemma handler_failure_ends_the_loop_witness :
  let E := mkEnv (fun k _ => if (k =? 1)%nat
                             then Raise (mkExn ConnectionError "connection refused")
                             else Ok (lit "MERGE (n)"))
                 neo_always_fail in
  let draft := text ["LINE1"; "LINE2"] in
  let req := code_request (VStr draft) (VStr (lit "fix")) (VStr (lit "tok")) in
  retry_loop E draft (VStr (lit "fix")) (VStr (lit "tok")) retries (mkVars 0 false []) []
  = (Raise (mkExn Exception "Request error occurred: connection refused"),
     [EvPost req; EvNeo (lit "MERGE (n)");
      EvPrint (OutRetrying syntax_error 1 retries); EvPost req]).
Proof.
  intros E draft req.
  refine (@handler_failure_ends_the_loop E draft (VStr (lit "fix")) (VStr (lit "tok"))
            retries (mkVars 0 false []) [] (lit "MERGE (n)") syntax_error
            (mkExn ConnectionError "connection refused") eq_refl _ eq_refl eq_refl
            eq_refl eq_refl).
  unfold retries. simpl. lia.
Defined.

(** X15.  With an empty draft (or an empty instruction or token) the loop
    contacts nobody: the [ValueError] of the repair call is caught, the
    handler prints its line, its own repair call raises [ValueError]
    again, and that one leaves the loop in the first pass. *)
Theorem empty_draft_raises_value_error
    (E : env) (draft : str) (instruct token : value)
    (n : nat) (v : vars) (t : trace) :
  all [VStr draft; instruct; token] = false ->
  attempt v < n ->
  retry_loop E draft instruct token n v t
  = (Raise code_invalid,
     t ++ [EvPrint (OutRetrying code_invalid (attempt v + 1) n)]).
Proof.
  intros Hinv Hlt. rewrite retry_loop_step by assumption.
  apply bind_raise.
  assert (Hrep : forall u, repair E draft instruct token u = (Raise code_invalid, u))
    by (intros u; now apply generate_code_invalid).
  erewrite try_except_raise by (unfold try_block; apply bind_raise; apply Hrep).
  cbn [dispatch]. change (isinstance code_invalid Exception) with true. cbv iota.
  unfold except_block, bind at 1, print, emit.
  apply bind_raise. apply Hrep.
Qed.

Lemma empty_draft_raises_value_error_witness :
  let E := mkEnv (llm_fixed (lit "MERGE (n)")) (neo_fail_first 0) in
  all [VStr []; VStr (lit "fix"); VStr (lit "tok")] = false
  /\ retry_loop E [] (VStr (lit "fix")) (VStr (lit "tok")) retries (mkVars 0 false []) []
     = (Raise code_invalid, [] ++ [EvPrint (OutRetrying code_invalid (0 + 1) retries)]).
Proof.
  intros E. split; [reflexivity|].
  apply (@empty_draft_raises_value_error E [] (VStr (lit "fix")) (VStr (lit "tok"))
           retries (mkVars 0 false []) []); [reflexivity|].
  unfold retries. simpl. lia.
Defined.

(** ** The whole run *)

Section AppFacts.

Variable E : env.

Lemma within_app si0 si1 si2 doc tok :
  within (3 + 2 * retries) retries (app E si0 si1 si2 doc tok).
Proof.
  unfold app.
  apply within_weaken
    with (a := 1 + (0 + (0 + (0 + (0 + (0 + (1 + (0 + (1 + (0 + 2 * retries))))))))))
         (b := 0 + (0 + (0 + (0 + (0 + (0 + (0 + (0 + (0 + (0 + retries))))))))));
    [|unfold retries; lia..].
  repeat (apply within_bind;
          [first [ apply within_generate_text | apply within_generate_code
                 | apply within_lift | apply within_print; discriminate ]
          | intros ? ]).
  apply within_retry_section. unfold retries. lia.
Qed.

End AppFacts.

(** X16.  When the first instruction, the document text or the token is
    empty, the run raises [ValueError] at the theme stage: nothing is
    sent, submitted or printed. *)
Theorem app_rejects_empty_input
    (E : env) (si0 si1 si2 : value) (doc tok : str) (t : trace) :
  truthy si0 = false \/ doc = [] \/ tok = [] ->
  app E si0 si1 si2 doc tok t = (Raise text_invalid, t).
Proof.
  intros H. unfold app. apply bind_raise. apply generate_text_invalid.
  apply all3. destruct H as [H|[->| ->]]; auto.
Qed.

Lemma app_rejects_empty_input_witness :
  let E := mkEnv (llm_fixed (lit "themes")) (neo_fail_first 0) in
  (truthy (VStr (lit "extract")) = false \/ lit "document" = [] \/ lit "" = [])
  /\ app E (VStr (lit "extract")) (VStr (lit "draft")) (VStr (lit "fix"))
       (lit "document") (lit "") []
     = (Raise text_invalid, []).
Proof.
  intros E.
  assert (H : truthy (VStr (lit "extract")) = false \/ lit "document" = [] \/ lit "" = [])
    by (right; right; reflexivity).
  split; [exact H|].
  exact (@app_rejects_empty_input E (VStr (lit "extract")) (VStr (lit "draft"))
           (VStr (lit "fix")) (lit "document") (lit "") [] H).
Defined.

(** X17.  When the theme stage answers with white space only, the
    normalizer returns the empty string and the drafting call rejects it:
    the run raises [ValueError] after one request, without asking for a
    draft. *)
Theorem app_rejects_blank_themes
    (E : env) (si0 si1 si2 : value) (doc tok themes : str) :
  all [si0; VStr doc; VStr tok] = true ->
  llm E 0 (text_request si0 (VStr doc) (VStr tok)) = Ok themes ->
  strip themes = [] ->
  app E si0 si1 si2 doc tok []
  = (Raise code_invalid,
     [EvPost (text_request si0 (VStr doc) (VStr tok));
      EvPrint (OutText "THEMES/KEYWORDS/RELATIONSHOPS" themes);
      EvPrint (OutLine "++++++++++++++++++++++++++");
      EvPrint (OutLine "<class 'str'>");
      EvPrint (OutLine "++++++++++++++++++++++++++")]).
Proof.
  intros Hall Hl Hblank. unfold app.
  erewrite bind_ok by (apply generate_text_ok; [exact Hall|exact Hl]).
  unfold bind at 1 2 3 4, print, emit. simpl app.
  unfold bind at 1, lift. rewrite (special_delim_token_blank _ Hblank).
  apply bind_raise. now apply generate_code_invalid.
Qed.

Lemma app_rejects_blank_themes_witness :
  let E := mkEnv (llm_fixed (text ["  "; " "])) (neo_fail_first 0) in
  exists t,
    app E (VStr (lit "extract")) (VStr (lit "draft")) (VStr (lit "fix"))
      (lit "document") (lit "tok") []
    = (Raise code_invalid, t)
    /\ length (posts t) = 1.
Proof.
  intros E. eexists. split.
  - apply (@app_rejects_blank_themes E (VStr (lit "extract")) (VStr (lit "draft"))
             (VStr (lit "fix")) (lit "document") (lit "tok") (text ["  "; " "]));
      reflexivity.
  - reflexivity.
Defined.

(** X18.  The run in which every stage answers and the database accepts
    the first submission: four requests go out, in order the theme
    request, the drafting request on the normalized themes, and twice the
    repair request on the draft; the script that is submitted is the
    answer to the fourth request, and the answer to the third (the repair
    before the loop) is printed but never submitted. *)
Theorem app_first_attempt_succeeds
    (E : env) (si0 si1 si2 : value) (doc tok themes draft final0 q : str) :
  let delimited := join [LF] (map add_marker (split LF (strip themes))) in
  let theme_req := text_request si0 (VStr doc) (VStr tok) in
  let draft_req := code_request (VStr delimited) si1 (VStr tok) in
  let repair_req := code_request (VStr draft) si2 (VStr tok) in
  all [si0; VStr doc; VStr tok] = true ->
  truthy si1 = true -> truthy si2 = true ->
  llm E 0 theme_req = Ok themes -> strip themes <> [] ->
  llm E 1 draft_req = Ok draft -> draft <> [] ->
  llm E 2 repair_req = Ok final0 ->
  llm E 3 repair_req = Ok q ->
  neo4j E 0 q = Ok tt ->
  app E si0 si1 si2 doc tok []
  = (Ok tt,
     [EvPost theme_req;
      EvPrint (OutText "THEMES/KEYWORDS/RELATIONSHOPS" themes);
      EvPrint (OutLine "++++++++++++++++++++++++++");
      EvPrint (OutLine "<class 'str'>");
      EvPrint (OutLine "++++++++++++++++++++++++++");
      EvPost draft_req;
      EvPrint (OutText "CYPHER QUERY DRAFT" draft);
      EvPost repair_req;
      EvPrint (OutText "CYPHER QUERY FINAL" final0);
      EvPost repair_req; EvNeo q; EvPrint OutSuccess]).
Proof.
  intros delimited theme_req draft_req repair_req
    Hall H1 H2 Hthemes Hne Hdraft Hd Hfinal Hq Hneo.
  assert (Htok : truthy (VStr tok) = true).
  { unfold all in Hall. simpl in Hall. simpl.
    destruct (truthy si0), (nonempty doc), (nonempty tok);
      simpl in Hall; congruence. }
  assert (Hdel : delimited <> []) by now apply join_marked_not_nil.
  assert (Hall1 : all [VStr delimited; si1; VStr tok] = true).
  { unfold all. simpl. rewrite H1. simpl in Htok. rewrite Htok.
    destruct delimited; [congruence|reflexivity]. }
  assert (Hall2 : all [VStr draft; si2; VStr tok] = true).
  { unfold all. simpl. rewrite H2. simpl in Htok. rewrite Htok.
    destruct draft; [congruence|reflexivity]. }
  unfold app.
  erewrite bind_ok by (apply generate_text_ok; [exact Hall|exact Hthemes]).
  unfold bind at 1 2 3 4, print, emit. simpl app.
  unfold bind at 1, lift. rewrite (special_delim_token_lines _ Hne).
  fold delimited.
  erewrite bind_ok by (apply generate_code_ok; [exact Hall1|exact Hdraft]).
  unfold bind at 1. simpl app.
  erewrite bind_ok by (apply generate_code_ok; [exact Hall2|exact Hfinal]).
  unfold bind at 1. simpl app.
  unfold retry_section.
  erewrite bind_ok.
  2:{ apply pass_success; [exact Hall2|unfold retries; simpl; lia|exact Hq|exact Hneo]. }
  reflexivity.
Qed.

Lemma app_first_attempt_succeeds_witness :
  let E := mkEnv (fun k _ => match k with
                             | 0 => Ok (text ["energy / drives / cooling"; ""])
                             | 1 => Ok (lit "MERGE (a)-[:DRIVES]->(b)")
                             | 2 => Ok (lit "MERGE (a)-[:DRIVES]->(b);")
                             | _ => Ok (lit "MERGE (a)-[:DRIVES]->(b) RETURN 1")
                             end)
                 (neo_fail_first 0) in
  exists t,
    app E (VStr (lit "extract")) (VStr (lit "draft")) (VStr (lit "fix"))
      (lit "Data centers consume significant energy for cooling.") (lit "tok") []
    = (Ok tt, t)
    /\ submissions t = [lit "MERGE (a)-[:DRIVES]->(b) RETURN 1"]
    /\ length (posts t) = 4.
Proof.
  intros E. eexists. split.
  - apply (@app_first_attempt_succeeds E (VStr (lit "extract")) (VStr (lit "draft"))
             (VStr (lit "fix"))
             (lit "Data centers consume significant energy for cooling.") (lit "tok")
             (text ["energy / drives / cooling"; ""])
             (lit "MERGE (a)-[:DRIVES]->(b)")
             (lit "MERGE (a)-[:DRIVES]->(b);")
             (lit "MERGE (a)-[:DRIVES]->(b) RETURN 1"));
      try reflexivity; discriminate.
  - split; reflexivity.
Defined.

(** X19.  Bounded cost of a run: whatever the endpoint and the database
    do, and whatever the inputs are, the script sends at most eleven
    requests (three before the loop, two for each of the four attempts),
    submits at most four scripts, and never reaches the block that tries
    the truncated draft. *)
Theorem app_bounded
    (E : env) (si0 si1 si2 : value) (doc tok : str) (t : trace) :
  exists u,
    snd (app E si0 si1 si2 doc tok t) = t ++ u
    /\ length (posts u) <= 11
    /\ length (submissions u) <= 4
    /\ ~ In OutTruncated (printed u).
Proof.
  destruct (@within_app E si0 si1 si2 doc tok t) as (u & Hu & Hp & Hs & Hn).
  exists u. unfold retries in Hp, Hs. simpl in Hp. repeat split; assumption.
Qed.

(** ** [document_processing] *)

Section DocumentFacts.

Lemma concatenate_spec chunks :
  forall input_text log,
    concatenate chunks input_text log
    = (input_text ++ concat (map (fun c => c ++ [LF]) chunks),
       log ++ repeat completed (length chunks)).
Proof.
  induction chunks as [|c chunks IH]; intros input_text log; simpl.
  - now rewrite !app_nil_r.
  - rewrite IH. now rewrite <- !app_assoc.
Qed.

(** Chunks without line feed can be read back from the text. *)
Lemma split_concat_chunks chunks :
  Forall (fun c => ~ In LF c) chunks ->
  split LF (concat (map (fun c => c ++ [LF]) chunks)) = chunks ++ [[]].
Proof.
  induction 1 as [|c chunks Hc _ IH]; [reflexivity|].
  cbn [map concat].
  replace ((c ++ [LF]) ++ concat (map (fun c => c ++ [LF]) chunks))
    with (c ++ LF :: concat (map (fun c => c ++ [LF]) chunks))
    by now rewrite <- app_assoc.
  rewrite split_app_sep by assumption. now rewrite IH.
Qed.

Lemma concat_chunks_nil chunks :
  concat (map (fun c : str => c ++ [LF]) chunks) = [] <-> chunks = [].
Proof.
  split; [|now intros ->].
  destruct chunks as [|c chunks]; [reflexivity|].
  simpl. intros H. apply app_eq_nil in H. destruct H as [H _].
  apply app_eq_nil in H. destruct H as [_ H]. discriminate.
Qed.

(** What the two [except] clauses make of an exception. *)
Lemma document_processing_raise D src mt e log :
  document_body D src mt = (Raise e, log) ->
  fst (document_processing D src mt)
  = Raise (if isinstance e ValueError then e
           else if isinstance e Exception then
             mkExn Exception (fmsg "An error occurred during document processing: " e)
           else e).
Proof.
  intros Hb. unfold document_processing. rewrite Hb.
  destruct (isinstance e ValueError); [reflexivity|].
  destruct (isinstance e Exception); reflexivity.
Qed.

End DocumentFacts.

Lemma document_body_raise D src mt e log :
  document_body D src mt = (Raise e, log) -> stage_raises D src mt e.
Proof.
  unfold document_body, stage_raises.
  destruct (convert D src) as [doc|e0] eqn:Hc; [|intros [= ->]; now left].
  destruct (from_pretrained D _) as [tok|e0] eqn:Ht; [|intros [= ->]; auto].
  destruct (hybrid_chunker D tok mt true) as [chk|e0] eqn:Hh;
    [|intros [= ->]; right; right; left; eauto].
  destruct (chunk D chk doc) as [chunks|e0] eqn:Hk;
    [|intros [= ->]; right; right; right; eauto].
  destruct (concatenate chunks [] _). discriminate.
Qed.

(** X20.  When the converter, the tokenizer and the chunker all work,
    [document_processing] returns the texts of the chunks, in order, each
    followed by a line feed.  The text is empty exactly when there is no
    chunk; chunks without line feed can be read back by splitting the text
    at line feeds (a last, empty field follows them); and the record
    "Document processing completed." is logged once for every chunk. *)
Theorem document_text_of_chunks
    (D : doc_env) (src : str) (mt : option N)
    (doc : document D) (tok : tokenizer D) (chk : chunker D) (chunks : list str) :
  convert D src = Ok doc ->
  from_pretrained D "ibm-granite/granite-3.1-8b-instruct" = Ok tok ->
  hybrid_chunker D tok mt true = Ok chk ->
  chunk D chk doc = Ok chunks ->
  let input_text := concat (map (fun c => c ++ [LF]) chunks) in
  document_processing D src mt
  = (Ok input_text,
     [LogInfo "Starting document conversion...";
      LogInfo "Document conversion successful.";
      LogInfo "Loading tokenizer model...";
      LogInfo "Tokenizer model loaded successfully.";
      LogInfo "Setting up the chunker...";
      LogInfo "Chunking the document...";
      DocPrint ("LENGTH of CHUNKS LIST:" ++ decimal (length chunks))]
     ++ repeat completed (length chunks))
  /\ (input_text = [] <-> chunks = [])
  /\ (Forall (fun c => ~ In LF c) chunks -> split LF input_text = chunks ++ [[]]).
Proof.
  intros Hc Ht Hh Hk input_text. split; [|split].
  - unfold document_processing, document_body.
    rewrite Hc, Ht, Hh, Hk, concatenate_spec. reflexivity.
  - apply concat_chunks_nil.
  - apply split_concat_chunks.
Qed.

Lemma document_text_of_chunks_witness :
  let D := doc_env_chunks [lit "Data centers"; lit "consume energy"] in
  document_processing D (lit "assets/doc.pdf") default_max_tokens
  = (Ok (text ["Data centers"; "consume energy"; ""]),
     [LogInfo "Starting document conversion...";
      LogInfo "Document conversion successful.";
      LogInfo "Loading tokenizer model...";
      LogInfo "Tokenizer model loaded successfully.";
      LogInfo "Setting up the chunker...";
      LogInfo "Chunking the document...";
      DocPrint "LENGTH of CHUNKS LIST:2"; completed; completed])
  /\ split LF (text ["Data centers"; "consume energy"; ""])
     = [lit "Data centers"; lit "consume energy"] ++ [[]].
Proof.
  intros D.
  destruct (@document_text_of_chunks D (lit "assets/doc.pdf") default_max_tokens
              tt tt tt [lit "Data centers"; lit "consume energy"]
              eq_refl eq_refl eq_refl eq_refl) as (Hrun & _ & Hsplit).
  split; [exact Hrun|].
  apply Hsplit. repeat constructor; vm_compute; intuition discriminate.
Defined.

(** X21.  Whatever [document_processing] raises comes from a library call
    that raised: a [ValueError] is passed on as it is, any other
    [Exception] is replaced by a plain [Exception] whose message names the
    cause, and what is not an [Exception] passes through.  So a caller
    sees, among exceptions, only [ValueError]s and plain [Exception]s. *)
Theorem document_processing_errors
    (D : doc_env) (src : str) (mt : option N) (r : exn) :
  fst (document_processing D src mt) = Raise r ->
  exists e,
    stage_raises D src mt e
    /\ r = (if isinstance e ValueError then e
            else if isinstance e Exception then
              mkExn Exception (fmsg "An error occurred during document processing: " e)
            else e)
    /\ (isinstance r Exception = true ->
        isinstance r ValueError = true \/ exn_cls r = Exception).
Proof.
  intros Hr.
  destruct (document_body D src mt) as [[x|e] log] eqn:Hb.
  - unfold document_processing in Hr. rewrite Hb in Hr. discriminate.
  - rewrite (document_processing_raise _ _ _ Hb) in Hr. injection Hr as <-.
    exists e. split; [eapply document_body_raise; eassumption|].
    split; [reflexivity|].
    destruct (isinstance e ValueError) eqn:Hv; [now left|].
    destruct (isinstance e Exception) eqn:He; [now right|congruence].
Qed.

Lemma document_processing_errors_witness :
  let D := doc_env_unreadable (mkExn KeyError "'pages'") in
  fst (document_processing D (lit "assets/doc.pdf") default_max_tokens)
  = Raise (mkExn Exception "An error occurred during document processing: 'pages'")
  /\ exists e,
       stage_raises D (lit "assets/doc.pdf") default_max_tokens e
       /\ isinstance e ValueError = false.
Proof.
  intros D. split; [reflexivity|].
  destruct (@document_processing_errors D (lit "assets/doc.pdf") default_max_tokens
              (mkExn Exception "An error occurred during document processing: 'pages'")
              eq_refl) as (e & Hst & Hr & _).
  exists e. split; [exact Hst|].
  destruct (isinstance e ValueError) eqn:Hv; [|reflexivity].
  subst e. discriminate Hv.
Defined.

(** X22.  The endpoint is contacted only when the document gave some
    text: if [document_processing] raises, the script stops there; if it
    returns the empty text (a document without chunks), the theme stage
    raises [ValueError]; in both cases nothing is sent or submitted. *)
Theorem script_needs_document_text
    (D : doc_env) (E : env) (src : str) (si0 si1 si2 : value) (tok : str) :
  (forall r,
     fst (document_processing D src default_max_tokens) = Raise r ->
     script D E src si0 si1 si2 tok
     = (Raise r, snd (document_processing D src default_max_tokens), []))
  /\ (fst (document_processing D src default_max_tokens) = Ok [] ->
      script D E src si0 si1 si2 tok
      = (Raise text_invalid, snd (document_processing D src default_max_tokens), [])).
Proof.
  unfold script. split.
  - intros r Hr.
    destruct (document_processing D src default_max_tokens) as [[x|e] log];
      simpl in *; congruence.
  - intros Hr.
    destruct (document_processing D src default_max_tokens) as [[x|e] log];
      simpl in *; [|discriminate].
    injection Hr as ->.
    assert (Happ : app E si0 si1 si2 [] tok [] = (Raise text_invalid, [])).
    { unfold app. apply bind_raise. apply generate_text_invalid.
      apply all3. right. now left. }
    now rewrite Happ.
Qed.

Lemma script_needs_document_text_witness :
  let D := doc_env_chunks [] in
  let E := mkEnv (llm_fixed (lit "themes")) (neo_fail_first 0) in
  fst (document_processing D (lit "assets/empty.pdf") default_max_tokens) = Ok []
  /\ fst (fst (script D E (lit "assets/empty.pdf") (VStr (lit "extract"))
                 (VStr (lit "draft")) (VStr (lit "fix")) (lit "tok")))
     = Raise text_invalid.
Proof.
  intros D E. split; [reflexivity|].
  rewrite (proj2 (@script_needs_document_text D E (lit "assets/empty.pdf")
                    (VStr (lit "extract")) (VStr (lit "draft")) (VStr (lit "fix"))
                    (lit "tok")) eq_refl).
  reflexivity.
Defined.
